(* ===================================================================== *)
(*  bayesflow/models/joint_model.py : the JointModel composition engine  *)
(*                                                                       *)
(*  A shallow embedding of class JointModel.  Python objects live in a   *)
(*  store and are named by their identity; every method is a function    *)
(*  in a state-and-exception monad over that store.  The tensor backend  *)
(*  and the methods of the component classes (ConditionalDistribution    *)
(*  and its subclasses, which joint_model.py only imports) are           *)
(*  parameters of the development.                                       *)
(* ===================================================================== *)

From stdpp Require Import gmap strings list fin_maps.

(** Object identities: [cid] names a component (ConditionalDistribution)
    object, [mid] a JointModel object.  Python's default [==], [in] and
    hashing on these objects are by identity. *)
Abbreviation cid := nat.
Abbreviation mid := nat.

(* --------------------------------------------------------------------- *)
(** * The execution backend                                               *)
(* --------------------------------------------------------------------- *)

(** TensorFlow builds a symbolic graph; its nodes and the graph
    constructors used by joint_model.py are kept abstract.  The
    constructors are functions: what a TensorFlow release does on
    arguments it rejects (an empty list given to [tf.pack], say) is not
    part of this model. *)
Class Backend := {
  Tensor : Type;
  (** values handed to [observe] before conversion *)
  Value : Type;
  (** deferred base-randomness thunks stored in [_sampled_source] *)
  Source : Type;
  tf_convert_to_tensor : Value → Tensor;
  tf_pack : list Tensor → Tensor;
  tf_reduce_sum : Tensor → Tensor;
  (** [+] on tensors *)
  tf_add : Tensor → Tensor → Tensor;
}.

(* --------------------------------------------------------------------- *)
(** * Python dictionaries whose iteration order is observed              *)
(* --------------------------------------------------------------------- *)

(** [_explicit_marginalizations] is iterated with [.items()], so it is
    kept as an association list in insertion order: assigning to a key
    that is present replaces the value in place, a new key goes last.
    The order in which [.items()] yields the entries is a parameter
    ([items] below).  The other dictionaries are only looked up,
    written, or iterated to fill another dictionary; they are finite
    maps. *)
Module Dict.
Section dict.
Context {K V : Type} `{EqDecision K}.

Fixpoint get (k : K) (d : list (K * V)) : option V :=
  match d with
  | [] => None
  | (k', v) :: d => if decide (k = k') then Some v else get k d
  end.

Fixpoint set (k : K) (v : V) (d : list (K * V)) : list (K * V) :=
  match d with
  | [] => [(k, v)]
  | (k', v') :: d =>
      if decide (k = k') then (k, v) :: d else (k', v') :: set k v d
  end.

Definition keys (d : list (K * V)) : list K := d.*1.
Definition values (d : list (K * V)) : list V := d.*2.
End dict.
End Dict.

(* --------------------------------------------------------------------- *)
(** * Objects                                                             *)
(* --------------------------------------------------------------------- *)

Module Component.
Section component.
Context `{Backend}.

(** The attributes of a component object that joint_model.py reads or
    writes.  [inputs_keys] stands for [inputs().keys()]. *)
Record t := mk {
  name : string;
  model : option mid;
  inputs_keys : list string;
  inputs_random : gmap string cid;
  _sampled : Tensor;
  _sampled_source : gmap nat Source;
}.

Definition set_model (o : option mid) (c : t) : t :=
  mk (name c) o (inputs_keys c) (inputs_random c) (_sampled c)
     (_sampled_source c).

(** Every attribute but the owner back-reference agrees. *)
Definition same_attrs (c c' : t) : Prop :=
  name c = name c' ∧ inputs_keys c = inputs_keys c' ∧
  inputs_random c = inputs_random c' ∧ _sampled c = _sampled c' ∧
  _sampled_source c = _sampled_source c'.
End component.
End Component.

Module JointModel.
Section joint_model.
Context `{Backend}.

Record t := mk {
  _components : list cid;
  _components_by_key : gmap string cid;
  _explicit_marginalizations : list (cid * cid);
  _explicit_marginalizations_reverse : gmap cid cid;
  _explicit_variational_model : option mid;
  inputs_random : gmap (cid * string) cid;
  inputs_nonrandom : gmap (cid * string) Tensor;
  name : string;
}.

Definition set_components (l : list cid) (m : t) : t :=
  mk l (_components_by_key m) (_explicit_marginalizations m)
     (_explicit_marginalizations_reverse m)
     (_explicit_variational_model m) (inputs_random m)
     (inputs_nonrandom m) (name m).

Definition set_inputs_random (i : gmap (cid * string) cid) (m : t) : t :=
  mk (_components m) (_components_by_key m) (_explicit_marginalizations m)
     (_explicit_marginalizations_reverse m)
     (_explicit_variational_model m) i (inputs_nonrandom m) (name m).

Definition set_explicit_marginalizations (d : list (cid * cid)) (m : t) : t :=
  mk (_components m) (_components_by_key m) d
     (_explicit_marginalizations_reverse m)
     (_explicit_variational_model m) (inputs_random m)
     (inputs_nonrandom m) (name m).

Definition set_explicit_marginalizations_reverse (r : gmap cid cid) (m : t)
  : t :=
  mk (_components m) (_components_by_key m) (_explicit_marginalizations m) r
     (_explicit_variational_model m) (inputs_random m)
     (inputs_nonrandom m) (name m).

Definition set_explicit_variational_model (o : option mid) (m : t) : t :=
  mk (_components m) (_components_by_key m) (_explicit_marginalizations m)
     (_explicit_marginalizations_reverse m) o (inputs_random m)
     (inputs_nonrandom m) (name m).
End joint_model.
End JointModel.

(* --------------------------------------------------------------------- *)
(** * The object store and the monad of methods                          *)
(* --------------------------------------------------------------------- *)

Section store.
Context `{Backend}.

Record State := mkState {
  comp_heap : gmap cid Component.t;
  model_heap : gmap mid JointModel.t;
}.

Inductive exn := KeyError | AssertionError.

(** [Stuck] is a dereference of an identity that names no object; it
    has no Python counterpart; the hypotheses [allocated] and
    [component_closed] of the theorems below exclude it. *)
Inductive outcome (A : Type) :=
| Ok (a : A) (s : State)
| Raise (e : exn) (s : State)
| Stuck.
Global Arguments Ok {A}.
Global Arguments Raise {A}.
Global Arguments Stuck {A}.

Definition M (A : Type) : Type := State → outcome A.

Definition ret {A} (a : A) : M A := λ s, Ok a s.

Definition bind {A B} (c : M A) (k : A → M B) : M B :=
  λ s, match c s with
       | Ok a s' => k a s'
       | Raise e s' => Raise e s'
       | Stuck => Stuck
       end.

Definition raise {A} (e : exn) : M A := λ s, Raise e s.

(** [try: body except KeyError: handler] *)
Definition try_except_KeyError {A} (body handler : M A) : M A :=
  λ s, match body s with
       | Raise KeyError s' => handler s'
       | r => r
       end.

Definition get_component (d : cid) : M Component.t :=
  λ s, match comp_heap s !! d with Some c => Ok c s | None => Stuck end.

Definition get_model (self : mid) : M JointModel.t :=
  λ s, match model_heap s !! self with Some m => Ok m s | None => Stuck end.

Definition put_component (d : cid) (c : Component.t) : M unit :=
  λ s, Ok tt (mkState (<[d := c]> (comp_heap s)) (model_heap s)).

Definition put_model (self : mid) (m : JointModel.t) : M unit :=
  λ s, Ok tt (mkState (comp_heap s) (<[self := m]> (model_heap s))).

(** Object creation: a new object gets an identity no live object has. *)
Definition new_component (c : Component.t) : M cid :=
  λ s, let d := fresh (dom (comp_heap s)) in
       Ok d (mkState (<[d := c]> (comp_heap s)) (model_heap s)).

Definition new_model (m : JointModel.t) : M mid :=
  λ s, let self := fresh (dom (model_heap s)) in
       Ok self (mkState (comp_heap s) (<[self := m]> (model_heap s))).

(** [d[k]] on a dictionary: KeyError when the key is absent. *)
Definition getitem {V} (o : option V) : M V :=
  match o with Some v => ret v | None => raise KeyError end.
End store.

Notation "x <- c ;; k" := (bind c (λ x, k))
(at level 100, c at next level, right associativity,
   format "'[v' x  <-  c  ;;  '/' k ']'").
Notation "c ;;; k" := (bind c (λ _, k))
(at level 100, right associativity).

(** [for x in l: body(x)] *)
Fixpoint for_each `{Backend} {A} (l : list A) (body : A → M unit) : M unit :=
  match l with
  | [] => ret tt
  | x :: l => body x ;;; for_each l body
  end.

(** A list built by [append] in a loop. *)
Fixpoint for_collect `{Backend} {A B} (l : list A) (body : A → M B)
    : M (list B) :=
  match l with
  | [] => ret []
  | x :: l => y <- body x ;; ys <- for_collect l body ;; ret (y :: ys)
  end.

(** A loop that updates a local variable. *)
Fixpoint for_fold `{Backend} {A B} (l : list A) (body : B → A → M B) (acc : B)
    : M B :=
  match l with
  | [] => ret acc
  | x :: l => acc' <- body acc x ;; for_fold l body acc'
  end.

(* --------------------------------------------------------------------- *)
(** * External collaborators                                              *)
(* --------------------------------------------------------------------- *)

(** What joint_model.py calls but does not define: the methods of the
    component classes, the random hex string of [uuid.uuid4()], and the
    order in which a Python 2 dictionary yields its items (some
    rearrangement of the insertion order, fixed by the hashes). *)
Class Collaborators `{Backend} := {
  _expected_logp : State → cid → gmap string cid → Tensor;
  _parameterized_entropy_lower_bound :
    State → cid → gmap string Tensor → Tensor;
  (** the attributes of the object [v._default_variational_model()]
      constructs, from those of [v] *)
  _default_variational_model : Component.t → Component.t;
  uuid4_hex : mid → string;
  items : list (cid * cid) → list (cid * cid);
  items_Permutation : ∀ d, items d ≡ₚ d;
}.

(** Modelled from the spec: the constructor of class WrapperNode, which
    joint_model.py imports from bayesflow.models.  The spec describes it
    as a trivial fixed-value component: it has the given name and owner,
    no inputs, and its sample is the wrapped tensor. *)
Definition WrapperNode `{Backend} (tf_value : Tensor) (name : string)
    (model : option mid) : Component.t :=
  Component.mk name model [] ∅ tf_value ∅.

(** The closure [sample_all_sources] is represented by the dictionary
    [random_sources] it captures. *)
Record SampleAllSources `{Backend} := mkSampleAllSources {
  random_sources : gmap nat Source;
}.
Global Arguments mkSampleAllSources {_} _.
Global Arguments random_sources {_} _.

(* --------------------------------------------------------------------- *)
(** * class JointModel                                                    *)
(* --------------------------------------------------------------------- *)

Section methods.
Context `{Collaborators}.

(** [JointModel(name)]: allocation followed by [__init__]. *)
Definition __init__ (name : option string) : M mid :=
  λ s, let self := fresh (dom (model_heap s)) in
       let name := match name with
                   | None => String.substring 0 6 (uuid4_hex self)
                   | Some name => name
                   end in
       new_model (JointModel.mk [] ∅ [] ∅ None ∅ ∅ name) s.

Definition extend (self : mid) (d : cid) : M unit :=
  c <- get_component d ;;
  match Component.model c with
  | None => put_component d (Component.set_model (Some self) c)
  | Some m' => if decide (m' = self) then ret tt else raise AssertionError
  end ;;;
  for_each (map_to_list (Component.inputs_random c)) (λ '(param, node),
    m <- get_model self ;;
    if decide (node ∈ JointModel._components m) then ret tt
    else put_model self
           (JointModel.set_inputs_random
              (<[(d, param) := node]> (JointModel.inputs_random m)) m)) ;;;
  m <- get_model self ;;
  put_model self (JointModel.set_components (JointModel._components m ++ [d]) m).

Definition variational_model (self : mid) : M mid :=
  m <- get_model self ;;
  match JointModel._explicit_variational_model m with
  | None =>
      vm_joint <- __init__ None ;;
      m <- get_model self ;;
      for_each (items (JointModel._explicit_marginalizations m))
        (λ '(vname, qdist), extend vm_joint qdist) ;;;
      m <- get_model self ;;
      put_model self
        (JointModel.set_explicit_variational_model (Some vm_joint) m) ;;;
      ret vm_joint
  | Some vm => ret vm
  end.

Definition marginalize (self : mid) (model_var : cid) (q_dist : option cid)
    : M unit :=
  q_dist <- match q_dist with
            | None =>
                v <- get_component model_var ;;
                new_component (_default_variational_model v)
            | Some q_dist => ret q_dist
            end ;;
  m <- get_model self ;;
  put_model self
    (JointModel.set_explicit_marginalizations
       (Dict.set model_var q_dist (JointModel._explicit_marginalizations m))
       m) ;;;
  m <- get_model self ;;
  put_model self
    (JointModel.set_explicit_marginalizations_reverse
       (<[q_dist := model_var]> (JointModel._explicit_marginalizations_reverse m))
       m).

Definition observe (self : mid) (model_var : cid) (val : Value) : M unit :=
  let tf_value := tf_convert_to_tensor val in
  v <- get_component model_var ;;
  q_dist <- new_component
              (WrapperNode tf_value ("observed_" +:+ Component.name v) None) ;;
  marginalize self model_var (Some q_dist).

(** [x in l] on a list: the answer, and the number of comparisons made
    until it is known. *)
Fixpoint list_contains (x : cid) (l : list cid) : bool * nat :=
  match l with
  | [] => (false, 0)
  | y :: l =>
      if decide (x = y) then (true, 1)
      else let '(found, comparisons) := list_contains x l in
           (found, S comparisons)
  end.

(** The list comprehension of [outputs], with the steps it takes in
    Python 2: one for each element of [_components] visited, one for
    each key that [.keys()] copies into the list it builds for that
    element, and one for each comparison [not in] makes on that list. *)
Fixpoint non_marginalized (components : list cid)
    (marginalizations : list (cid * cid)) : list cid * nat :=
  match components with
  | [] => ([], 0)
  | node :: components =>
      let keys := Dict.keys marginalizations in
      let '(found, comparisons) := list_contains node keys in
      let '(rest, steps) := non_marginalized components marginalizations in
      (if found then rest else node :: rest,
       1 + length keys + comparisons + steps)
  end.

Definition outputs (self : mid) : M (list cid) :=
  m <- get_model self ;;
  ret (non_marginalized (JointModel._components m)
         (JointModel._explicit_marginalizations m)).1.

(** The steps [outputs()] takes. *)
Definition outputs_steps (self : mid) : M nat :=
  m <- get_model self ;;
  ret (non_marginalized (JointModel._components m)
         (JointModel._explicit_marginalizations m)).2.

Definition _topo_sorted (self : mid) : M (list cid) :=
  m <- get_model self ;;
  ret (JointModel._components m).

Definition _sample (self : mid) (input_vals : gmap string Tensor)
    : M (gmap (mid * string + string) Tensor * SampleAllSources) :=
  let sampled_vals : gmap (mid * string + string) Tensor :=
    kmap (λ param, inl (self, param)) input_vals in
  let random_sources : gmap nat Source := ∅ in
  components <- _topo_sorted self ;;
  r <- for_fold components (λ '(random_sources, sampled_vals) component,
         c <- get_component component ;;
         ret (Component._sampled_source c ∪ random_sources,
              <[inr (Component.name c) := Component._sampled c]> sampled_vals))
       (random_sources, sampled_vals) ;;
  ret (r.2, mkSampleAllSources r.1).

Definition _entropy_lower_bound (self : mid) : M Tensor :=
  components <- _topo_sorted self ;;
  component_entropies <- for_collect components (λ component,
    c <- get_component component ;;
    input_samples <- for_collect (map_to_list (Component.inputs_random c))
      (λ '(param, sourcenode),
        n <- get_component sourcenode ;;
        ret (param, Component._sampled n)) ;;
    λ s, Ok (_parameterized_entropy_lower_bound s component
               (list_to_map input_samples)) s) ;;
  ret (tf_reduce_sum (tf_pack component_entropies)).

(** The inner loop of [_logp] that fills [component_qs]. *)
Definition collect_component_qs (self : mid) (c : Component.t)
    : M (gmap string cid) :=
  for_fold (Component.inputs_keys c) (λ component_qs param,
    try_except_KeyError
      (m <- get_model self ;;
       node <- getitem (Component.inputs_random c !! param) ;;
       q_dist <- getitem
                   (Dict.get node (JointModel._explicit_marginalizations m)) ;;
       ret (<["q_" +:+ param := q_dist]> component_qs))
      (ret component_qs)) ∅.

(** The body of the loop of [_logp] over the components. *)
Definition _logp_component (self : mid) (component : cid) : M Tensor :=
  c <- get_component component ;;
  component_qs <- collect_component_qs self c ;;
  m <- get_model self ;;
  q_dist <- getitem
              (Dict.get component (JointModel._explicit_marginalizations m)) ;;
  let component_qs := <["q_result" := q_dist]> component_qs in
  λ s, Ok (_expected_logp s component component_qs) s.

Definition _logp (self : mid) : M (Tensor * SampleAllSources) :=
  vm <- variational_model self ;;
  r <- _sample vm ∅ ;;
  let '(q_sample, stochastic_eps_fn) := r in
  q_entropy <- _entropy_lower_bound vm ;;
  components <- _topo_sorted self ;;
  component_lps <- for_collect components (_logp_component self) ;;
  let joint_lp := tf_reduce_sum (tf_pack component_lps) in
  let lp_bound := tf_add joint_lp q_entropy in
  ret (lp_bound, stochastic_eps_fn).

End methods.

(* --------------------------------------------------------------------- *)
(** * Call sequences that build a model                                   *)
(* --------------------------------------------------------------------- *)

Section building.
Context `{Collaborators}.

Inductive call :=
| CallExtend (d : cid)
| CallMarginalize (model_var : cid) (q_dist : option cid)
| CallObserve (model_var : cid) (val : Value).

Definition do_call (self : mid) (c : call) : M unit :=
  match c with
  | CallExtend d => extend self d
  | CallMarginalize model_var q_dist => marginalize self model_var q_dist
  | CallObserve model_var val => observe self model_var val
  end.

(** The store a call leaves behind, whether it returned or raised. *)
Definition state_after {A} (o : outcome A) : option State :=
  match o with
  | Ok _ s | Raise _ s => Some s
  | Stuck => None
  end.

Fixpoint run (self : mid) (cs : list call) (s : State) : option State :=
  match cs with
  | [] => Some s
  | c :: cs =>
      match state_after (do_call self c s) with
      | Some s' => run self cs s'
      | None => None
      end
  end.

(** The variables a call sequence hands to [marginalize] or [observe]. *)
Fixpoint passed (cs : list call) : list cid :=
  match cs with
  | [] => []
  | CallExtend _ :: cs => passed cs
  | CallMarginalize model_var _ :: cs => model_var :: passed cs
  | CallObserve model_var _ :: cs => model_var :: passed cs
  end.

End building.

(* --------------------------------------------------------------------- *)
(** * Well-formed stores                                                  *)
(* --------------------------------------------------------------------- *)

Section closed.
Context `{Backend}.

Definition allocated (s : State) (d : cid) : Prop :=
  is_Some (comp_heap s !! d).

(** [d] is a live component and so are the suppliers of its inputs. *)
Definition component_closed (s : State) (d : cid) : Prop :=
  ∃ c, comp_heap s !! d = Some c ∧
       map_Forall (λ _ node, allocated s node) (Component.inputs_random c).

End closed.

(* --------------------------------------------------------------------- *)
(** * The effect of the mutators, as functions on the model record       *)
(* --------------------------------------------------------------------- *)

Section effects.
Context `{Backend}.
Implicit Types (m : JointModel.t) (c : Component.t).

(** The record of a model after [marginalize(model_var, q_dist)]. *)
Definition marginalized (model_var q_dist : cid) m : JointModel.t :=
  JointModel.set_explicit_marginalizations_reverse
    (<[q_dist := model_var]> (JointModel._explicit_marginalizations_reverse m))
    (JointModel.set_explicit_marginalizations
       (Dict.set model_var q_dist (JointModel._explicit_marginalizations m)) m).

(** The free inputs the loop of [extend] records for [d]. *)
Definition register_free_inputs (d : cid) (components : list cid)
    (l : list (string * cid)) (i : gmap (cid * string) cid)
    : gmap (cid * string) cid :=
  foldl (λ i '(param, node),
           if decide (node ∈ components) then i else <[(d, param) := node]> i)
        i l.

Definition extended (d : cid) c m : JointModel.t :=
  JointModel.set_components (JointModel._components m ++ [d])
    (JointModel.set_inputs_random
       (register_free_inputs d (JointModel._components m)
          (map_to_list (Component.inputs_random c))
          (JointModel.inputs_random m)) m).

End effects.

(* --------------------------------------------------------------------- *)
(** * What the ELBO is assembled from                                     *)
(* --------------------------------------------------------------------- *)

Section elbo_terms.
Context `{Collaborators}.
Implicit Types (s : State) (m : JointModel.t) (c : Component.t).

(** The sampled values of the random inputs of [c], by parameter name. *)
Definition random_input_samples s c : gmap string Tensor :=
  omap (λ sourcenode, Component._sampled <$> comp_heap s !! sourcenode)
       (Component.inputs_random c).

(** The sample of one random input, when its supplier is live. *)
Definition input_sample s (pn : string * cid) : option (string * Tensor) :=
  (λ n, (pn.1, Component._sampled n)) <$> comp_heap s !! pn.2.

(** The entropy term of the component [d]: its parameterized entropy
    lower bound at the sampled values of its random inputs. *)
Definition component_entropy s (d : cid) : Tensor :=
  _parameterized_entropy_lower_bound s d
    (match comp_heap s !! d with
     | Some c => random_input_samples s c
     | None => ∅
     end).

(** The variational component that marginalizes the supplier of the
    random input [param] of [c], when there is one. *)
Definition input_marginalization (marginalizations : list (cid * cid)) c
    (param : string) : option cid :=
  node ← Component.inputs_random c !! param;
  Dict.get node marginalizations.

(** The variational components collected for the inputs of [c]. *)
Definition collected_qs (marginalizations : list (cid * cid)) c
    : gmap string cid :=
  foldl (λ component_qs param,
           match input_marginalization marginalizations c param with
           | Some q_dist => <["q_" +:+ param := q_dist]> component_qs
           | None => component_qs
           end)
        ∅ (Component.inputs_keys c).

(** The keyword arguments [_logp] hands to [_expected_logp] of [d]. *)
Definition variational_components (marginalizations : list (cid * cid)) s
    (d : cid) : gmap string cid :=
  let component_qs := match comp_heap s !! d with
                      | Some c => collected_qs marginalizations c
                      | None => ∅
                      end in
  match Dict.get d marginalizations with
  | Some q_dist => <["q_result" := q_dist]> component_qs
  | None => component_qs
  end.

(** The expected-log-probability term of the component [d]. *)
Definition component_expected_logp (marginalizations : list (cid * cid)) s
    (d : cid) : Tensor :=
  _expected_logp s d (variational_components marginalizations s d).

(** [tf.reduce_sum(tf.pack(l))] *)
Definition tf_sum (l : list Tensor) : Tensor := tf_reduce_sum (tf_pack l).

(** The variational model of [m] exists or can be built: a cached one
    is a live model whose components are closed; without a cached one,
    every registered variational component is closed and unowned, which
    is what the ownership assertion of [extend] asks for. *)
Definition variational_model_ready s m : Prop :=
  match JointModel._explicit_variational_model m with
  | Some vm =>
      ∃ mv, model_heap s !! vm = Some mv ∧
            Forall (component_closed s) (JointModel._components mv)
  | None =>
      Forall (λ q_dist, component_closed s q_dist ∧
                        ∃ c, comp_heap s !! q_dist = Some c ∧
                             Component.model c = None)
             (Dict.values (JointModel._explicit_marginalizations m))
  end.

(** Stores that differ at most in the owner back-references of
    components, which may have become [owner]. *)
Definition attrs_preserved (owner : mid) s s' : Prop :=
  ∀ d, match comp_heap s !! d, comp_heap s' !! d with
       | Some c, Some c' =>
           Component.same_attrs c c' ∧
           (Component.model c' = Component.model c ∨
            Component.model c' = Some owner)
       | None, None => True
       | _, _ => False
       end.

(** Methods that leave the store as it was. *)
Definition read_only {A} (c : M A) : Prop :=
  ∀ s, match c s with
       | Ok _ s' | Raise _ s' => s' = s
       | Stuck => True
       end.

(** Methods out of which no KeyError escapes. *)
Definition no_KeyError {A} (c : M A) : Prop :=
  ∀ s s', c s ≠ Raise KeyError s'.

End elbo_terms.

(* --------------------------------------------------------------------- *)
(** * Invariants of the bookkeeping                                       *)
(* --------------------------------------------------------------------- *)

Section bookkeeping.
Context `{Backend}.
Implicit Types (m : JointModel.t).

(** The two marginalization maps agree as far as the code keeps them in
    step: a variational component in use has a reverse entry, and a
    reverse entry names a marginalized variable. *)
Definition reverse_covers m : Prop :=
  (∀ v q_dist,
     Dict.get v (JointModel._explicit_marginalizations m) = Some q_dist →
     is_Some (JointModel._explicit_marginalizations_reverse m !! q_dist)) ∧
  (∀ q_dist v,
     JointModel._explicit_marginalizations_reverse m !! q_dist = Some v →
     v ∈ Dict.keys (JointModel._explicit_marginalizations m)).

End bookkeeping.

Section sampling.
Context `{Backend}.


End sampling.

(* --------------------------------------------------------------------- *)
(** * class JointModel, continued                                         *)
(* --------------------------------------------------------------------- *)

Section renaming.
Context `{Backend}.

(** The line [print "WARNING IGNORING VARIATIONAL NAME", vname]
    writes. *)
Definition warning (vname : string) : string :=
  "WARNING IGNORING VARIATIONAL NAME " +:+ vname.

(** [_match_variational_names(variational_sample)].  The argument is a
    dictionary keyed by pairs of a variational component and a name; it
    is given by its items, in the order the dictionary yields them.
    The lines written by [print] are returned beside the result. *)
Definition _match_variational_names (self : mid)
    (variational_sample : list (cid * string * Tensor))
    : M (gmap cid Tensor * list string) :=
  for_fold variational_sample
    (λ '(renamed_sample, printed) '((vnode, vname), val),
       found <- try_except_KeyError
                  (m <- get_model self ;;
                   mkey <- getitem
                     (JointModel._explicit_marginalizations_reverse m !! vnode) ;;
                   ret (Some mkey))
                  (ret None) ;;
       match found with
       | None => ret (renamed_sample, printed)
       | Some mkey =>
           ret (<[mkey := val]> renamed_sample, printed ++ [warning vname])
       end)
    (∅, []).

(** One round of that loop, on the result and the printed lines. *)
Definition rename_step (reverse : gmap cid cid)
    (acc : gmap cid Tensor * list string) (item : cid * string * Tensor)
    : gmap cid Tensor * list string :=
  match reverse !! item.1.1 with
  | Some mkey => (<[mkey := item.2]> acc.1, acc.2 ++ [warning item.1.2])
  | None => acc
  end.

End renaming.

(* --------------------------------------------------------------------- *)
(** * Sessions, optimizers and printing                                   *)
(* --------------------------------------------------------------------- *)

(** [posterior] and [train] run TensorFlow sessions, draw from numpy's
    generator and print.  All of that is one abstract world, changed by
    external calls that return a value or raise. *)

Inductive exception :=
| ModelError (e : exn)
| ValueError
| UnboundLocalError (variable : string)
| OtherError (tag : nat).

Inductive external (W A : Type) :=
| Done (a : A) (w : W)
| Failed (e : exception) (w : W).
Global Arguments Done {W A}.
Global Arguments Failed {W A}.

Class Runtime `{Collaborators} := {
  World : Type;
  Session : Type;
  Operation : Type;
  FeedDict : Type;
  (** what [sess.run] hands back *)
  Fetched : Type;
  Rate : Type;
  (** unary minus on tensors *)
  tf_neg : Tensor → Tensor;
  (** [tf.train.AdamOptimizer(adam_rate).minimize(loss)] *)
  AdamOptimizer_minimize : Rate → Tensor → World → external World Operation;
  tf_initialize_all_variables : World → external World Operation;
  tf_add_check_numerics_ops : World → external World Operation;
  tf_Session : World → external World Session;
  (** [sess.run(op, feed_dict)] for its effect *)
  sess_run_op :
    Session → Operation → option FeedDict → World → external World unit;
  (** [sess.run(tensor, feed_dict)] for its value *)
  sess_run :
    Session → Tensor → option FeedDict → World → external World Fetched;
  (** calling the deferred function [_sample] returned *)
  call_sample_all_sources : SampleAllSources → World → external World FeedDict;
  _optimized_params :
    cid → Session → option FeedDict → State → World →
    external World (gmap string Fetched);
  (** [print e] *)
  print_exception : exception → World → World;
  (** [print i, elbo_val] *)
  print_step : nat → Fetched → World → World;
}.

Section training.
Context `{Runtime}.

Inductive result (A : Type) :=
| Returned (a : A) (w : World) (s : State)
| Threw (e : exception) (w : World) (s : State)
| Wedged.
Global Arguments Returned {A}.
Global Arguments Threw {A}.
Global Arguments Wedged {A}.

Definition T (A : Type) : Type := World → State → result A.

Definition tret {A} (a : A) : T A := λ w s, Returned a w s.

Definition tbind {A B} (c : T A) (k : A → T B) : T B :=
  λ w s, match c w s with
         | Returned a w' s' => k a w' s'
         | Threw e w' s' => Threw e w' s'
         | Wedged => Wedged
         end.

Definition throw {A} (e : exception) : T A := λ w s, Threw e w s.

(** A method of the model, run inside [posterior] or [train]. *)
Definition lift {A} (c : M A) : T A :=
  λ w s, match c s with
         | Ok a s' => Returned a w s'
         | Raise e s' => Threw (ModelError e) w s'
         | Stuck => Wedged
         end.

(** An external call. *)
Definition run_external {A} (f : World → external World A) : T A :=
  λ w s, match f w with
         | Done a w' => Returned a w' s
         | Failed e w' => Threw e w' s
         end.

Definition effect (f : World → World) : T unit := λ w s, Returned tt (f w) s.

(** Reading a local variable that may not have been assigned. *)
Definition read_local {A} (variable : string) (o : option A) : T A :=
  match o with
  | Some a => tret a
  | None => throw (UnboundLocalError variable)
  end.

(** [try: body except ValueError as e: handler(e)] *)
Definition try_except_ValueError {A} (body : T A) (handler : exception → T A)
    : T A :=
  λ w s, match body w s with
         | Threw ValueError w' s' => handler ValueError w' s'
         | r => r
         end.

Fixpoint tfor_fold {A B} (l : list A) (body : B → A → T B) (acc : B) : T B :=
  match l with
  | [] => tret acc
  | x :: l => tbind (body acc x) (tfor_fold l body)
  end.

Definition posterior (self : mid) (session : Session)
    (feed_dict : option FeedDict) : T (gmap string (gmap string Fetched)) :=
  tbind (lift (variational_model self)) (λ vm,
  tbind (lift (get_model vm)) (λ mv,
  tfor_fold (JointModel._components mv) (λ posterior_vals node,
    tbind (λ w s, run_external (_optimized_params node session feed_dict s) w s) (λ d,
    if decide (0 < size d) then
      tbind (lift (get_component node)) (λ c,
      tret (<[Component.name c := d]> posterior_vals))
    else tret posterior_vals)) ∅)).

(** The body of the loop of [train]; it returns the value of the local
    variable [fd]. *)
Definition train_iteration (elbo : Tensor)
    (sample_stochastic : SampleAllSources) (debug : bool)
    (debug_ops train_step : option Operation) (sess : Session)
    (fd : option FeedDict) (i : nat) : T (option FeedDict) :=
  tbind (run_external (call_sample_all_sources sample_stochastic)) (λ fd,
  tbind (if debug then
           tbind (read_local "debug_ops" debug_ops) (λ debug_ops,
           run_external (sess_run_op sess debug_ops (Some fd)))
         else tret tt) (λ _,
  tbind (read_local "train_step" train_step) (λ train_step,
  tbind (run_external (sess_run_op sess train_step (Some fd))) (λ _,
  tbind (run_external (sess_run sess elbo (Some fd))) (λ elbo_val,
  tbind (effect (print_step i elbo_val)) (λ _,
  tret (Some fd))))))).

(** [train(steps, adam_rate, debug, return_session)]; [return_session]
    is not used by the code. *)
Definition train (self : mid) (steps : Z) (adam_rate : Rate) (debug : bool)
    (return_session : bool) : T (gmap string (gmap string Fetched)) :=
  tbind (lift (_logp self)) (λ r,
  let '(elbo, sample_stochastic) := r in
  tbind (try_except_ValueError
           (tbind (run_external (AdamOptimizer_minimize adam_rate (tf_neg elbo)))
              (λ train_step, tret (Some train_step, steps)))
           (λ e, tbind (effect (print_exception e)) (λ _, tret (None, 0%Z))))
    (λ assigned,
  let '(train_step, steps) := assigned in
  tbind (run_external tf_initialize_all_variables) (λ init,
  tbind (if debug then
           tbind (run_external tf_add_check_numerics_ops) (λ ops, tret (Some ops))
         else tret None) (λ debug_ops,
  tbind (run_external tf_Session) (λ sess,
  tbind (run_external (sess_run_op sess init None)) (λ _,
  tbind (tfor_fold (seq 0 (Z.to_nat steps))
           (train_iteration elbo sample_stochastic debug debug_ops train_step
              sess) None) (λ fd,
  tbind (read_local "fd" fd) (λ fd,
  posterior self sess (Some fd))))))))).

End training.

(* --------------------------------------------------------------------- *)
(** * A concrete backend and concrete stores                              *)
(* --------------------------------------------------------------------- *)

(** Tensors are flat vectors of integers: [tf.pack] concatenates,
    [tf.reduce_sum] adds up, [+] is pointwise.  Dictionaries yield their
    items in insertion order. *)
Module Example.

#[local] Instance toy_backend : Backend := {|
  Tensor := list Z;
  Value := Z;
  Source := nat;
  tf_convert_to_tensor v := [v];
  tf_pack l := concat l;
  tf_reduce_sum t := [foldr Z.add 0%Z t];
  tf_add a b := zip_with Z.add a b;
|}.

#[local] Instance toy_collaborators : Collaborators := {|
  _expected_logp s c qs := [Z.of_nat (c + size qs)];
  _parameterized_entropy_lower_bound s c ins := [Z.of_nat (10 * c + size ins)];
  _default_variational_model v :=
    Component.mk ("q_" +:+ Component.name v) None [] ∅ (Component._sampled v) ∅;
  uuid4_hex m := "0f1e2d3c4b5a69788796a5b4c3d2e1f0";
  items d := d;
  items_Permutation d := reflexivity d;
|}.

(** Components [A] (0), [B] (1, with random input [mean] supplied by
    [A]), two unowned variational components (2, 3) and a second
    component called [A] (4); no model yet. *)
Definition store0 : State :=
  mkState
    (list_to_map
       [(0, Component.mk "A" None [] ∅ [1%Z] ∅);
        (1, Component.mk "B" None ["mean"] {["mean" := 0]} [2%Z] ∅);
        (2, Component.mk "qA" None [] ∅ [3%Z] ∅);
        (3, Component.mk "qB" None [] ∅ [4%Z] ∅);
        (4, Component.mk "A" None [] ∅ [5%Z] ∅)])
    ∅.

(** The value a call returned, if it returned. *)
Definition returned {A} (o : outcome A) : option A :=
  match o with Ok a _ => Some a | _ => None end.

Definition raised {A} (o : outcome A) : option exn :=
  match o with Raise e _ => Some e | _ => None end.

(** The store a program leaves behind when run on [store0]. *)
Definition store_after {A} (prog : M A) : State :=
  match prog store0 with
  | Ok _ s | Raise _ s => s
  | Stuck => store0
  end.

Definition the_model (s : State) (self : mid) : JointModel.t :=
  default (JointModel.mk [] ∅ [] ∅ None ∅ ∅ "") (model_heap s !! self).

Definition the_component (s : State) (d : cid) : Component.t :=
  default (Component.mk "" None [] ∅ [] ∅) (comp_heap s !! d).

(** A new model (identity 0). *)
Definition store_new : State := store_after (__init__ (Some "jm")).

(** The model holding [A] and [B]. *)
Definition store_AB : State :=
  store_after (jm <- __init__ (Some "jm") ;; extend jm 0 ;;; extend jm 1).

(** The same, with [A] marginalized by [qA]. *)
Definition store_AB_qA : State :=
  store_after (jm <- __init__ (Some "jm") ;; extend jm 0 ;;; extend jm 1 ;;;
               marginalize jm 0 (Some 2)).

(** The same, with [B] marginalized by [qB] as well. *)
Definition store_AB_qA_qB : State :=
  store_after (jm <- __init__ (Some "jm") ;; extend jm 0 ;;; extend jm 1 ;;;
               marginalize jm 0 (Some 2) ;;; marginalize jm 1 (Some 3)).

(** The variational model (identity 1) of the latter, built. *)
Definition store_vm : State :=
  store_after (jm <- __init__ (Some "jm") ;; extend jm 0 ;;; extend jm 1 ;;;
               marginalize jm 0 (Some 2) ;;; marginalize jm 1 (Some 3) ;;;
               variational_model jm).

(** The variational model built after the first marginalization, a
    second marginalization registered afterwards. *)
Definition store_stale : State :=
  store_after (jm <- __init__ (Some "jm") ;; extend jm 0 ;;; extend jm 1 ;;;
               marginalize jm 0 (Some 2) ;;; variational_model jm ;;;
               marginalize jm 1 (Some 3)).

(** [A] marginalized by [B], a component the model owns. *)
Definition store_owned_q : State :=
  store_after (jm <- __init__ (Some "jm") ;; extend jm 0 ;;; extend jm 1 ;;;
               marginalize jm 0 (Some 1) ;;; marginalize jm 1 (Some 3)).

(** The model holding the two components called [A]. *)
Definition store_AA : State :=
  store_after (jm <- __init__ (Some "jm") ;; extend jm 0 ;;; extend jm 4).

Definition calls : list call :=
  [CallExtend 0; CallExtend 1; CallMarginalize 0 None; CallExtend 4;
   CallObserve 4 7%Z].

Definition store_built : State :=
  default store0 (run 0 calls store_new).

End Example.

(** A concrete runtime: the world is a counter of draws and the list of
    step numbers printed; [minimize] raises ValueError on the rate 0;
    a component with an even identity has one parameter, the others
    none. *)
Module ExampleRuntime.
Import Example.
#[local] Existing Instance toy_backend.
#[local] Existing Instance toy_collaborators.

#[local] Instance toy_runtime : Runtime := {|
  World := nat * list nat;
  Session := nat;
  Operation := nat;
  FeedDict := nat;
  Fetched := Z;
  Rate := Z;
  tf_neg t := Z.opp <$> t;
  AdamOptimizer_minimize rate loss w :=
    if decide (rate = 0%Z) then Failed ValueError w else Done 1 w;
  tf_initialize_all_variables w := Done 0 w;
  tf_add_check_numerics_ops w := Done 2 w;
  tf_Session w := Done 7 w;
  sess_run_op sess op fd w := Done tt w;
  sess_run sess t fd w := Done (foldr Z.add 0%Z t) w;
  call_sample_all_sources fn w := Done w.1 (S w.1, w.2);
  _optimized_params node sess fd s w :=
    Done (if decide (Nat.even node) then {["mean" := Z.of_nat node]} else ∅) w;
  print_exception e w := w;
  print_step i v w := (w.1, w.2 ++ [i]);
|}.

Definition world0 : World := (0, []).

(** The model of [store_AB_qA_qB], trained for two steps. *)
Definition trained : result (gmap string (gmap string Fetched)) :=
  train 0 2 1%Z false false world0 store_AB_qA_qB.

Definition trained_posterior : gmap string (gmap string Fetched) :=
  match trained with Returned r _ _ => r | _ => ∅ end.

Definition trained_world : World :=
  match trained with Returned _ w _ => w | _ => world0 end.

(** A new model extended by [A]. *)
Definition store_A : State :=
  store_after (jm <- __init__ (Some "jm") ;; extend jm 0).

(** [store_AB_qA] after a failed [_logp]. *)
Definition store_AB_qA_failed : State :=
  store_after (jm <- __init__ (Some "jm") ;; extend jm 0 ;;; extend jm 1 ;;;
               marginalize jm 0 (Some 2) ;;; _logp jm).

End ExampleRuntime.

(* ===================================================================== *)
(** * Properties                                                          *)
(* ===================================================================== *)

Section dict_facts.
Context {K V : Type} `{EqDecision K}.
Implicit Types (d : list (K * V)).

Lemma dict_get_set_eq k v d : Dict.get k (Dict.set k v d) = Some v.
Proof.
  induction d as [|[k' v'] d IH]; simpl.
  - by rewrite decide_True.
  - destruct (decide (k = k')) as [->|Hne]; simpl.
    + by rewrite decide_True.
    + by rewrite decide_False.
Qed.

Lemma dict_get_set_ne k k' v d :
  k ≠ k' → Dict.get k' (Dict.set k v d) = Dict.get k' d.
Proof.
  intros Hne. induction d as [|[k0 v0] d IH]; simpl.
  - by rewrite decide_False.
  - destruct (decide (k = k0)) as [->|Hne0]; simpl.
    + by rewrite !decide_False.
    + by rewrite IH.
Qed.

Lemma dict_keys_set k v d k' :
  k' ∈ Dict.keys (Dict.set k v d) ↔ k' = k ∨ k' ∈ Dict.keys d.
Proof.
  unfold Dict.keys. induction d as [|[k0 v0] d IH]; simpl.
  - rewrite list_elem_of_singleton, elem_of_nil. tauto.
  - destruct (decide (k = k0)) as [->|Hne0]; simpl.
    + rewrite !elem_of_cons. tauto.
    + rewrite !elem_of_cons, IH. tauto.
Qed.

Lemma dict_get_None k d : Dict.get k d = None ↔ k ∉ Dict.keys d.
Proof.
  unfold Dict.keys. induction d as [|[k0 v0] d IH]; simpl.
  - rewrite elem_of_nil. tauto.
  - rewrite elem_of_cons.
    destruct (decide (k = k0)) as [->|Hne0]; [naive_solver|].
    rewrite IH. tauto.
Qed.

Lemma dict_get_Some_values k v d : Dict.get k d = Some v → v ∈ Dict.values d.
Proof.
  unfold Dict.values. induction d as [|[k0 v0] d IH]; simpl; [done|].
  rewrite elem_of_cons. destruct (decide (k = k0)); naive_solver.
Qed.

End dict_facts.

Section facts.
Context `{Collaborators}.
Implicit Types (s : State) (m : JointModel.t) (c : Component.t).

Lemma list_contains_found (x : cid) (l : list cid) :
  (list_contains x l).1 = bool_decide (x ∈ l).
Proof.
  induction l as [|y l IH]; simpl; [done|].
  destruct (decide (x = y)) as [->|Hne]; simpl.
  - symmetry. apply bool_decide_eq_true. apply elem_of_cons. by left.
  - destruct (list_contains x l) as [found comparisons]; simpl in *.
    rewrite IH. apply bool_decide_ext. rewrite elem_of_cons. naive_solver.
Qed.

Lemma list_contains_comparisons (x : cid) (l : list cid) :
  (list_contains x l).2 ≤ length l.
Proof.
  induction l as [|y l IH]; simpl; [done|].
  destruct (decide (x = y)); simpl; [lia|].
  destruct (list_contains x l) as [found comparisons]; simpl in *. lia.
Qed.

Lemma non_marginalized_filter (l : list cid) (d : list (cid * cid)) :
  (non_marginalized l d).1 = filter (λ node, node ∉ Dict.keys d) l.
Proof.
  induction l as [|node l IH]; simpl; [done|].
  pose proof (list_contains_found node (Dict.keys d)) as Hfound.
  destruct (list_contains node (Dict.keys d)) as [found comparisons].
  destruct (non_marginalized l d) as [rest steps]; simpl in *.
  rewrite filter_cons. subst found.
  destruct (decide (node ∈ Dict.keys d)).
  - rewrite bool_decide_eq_true_2 by done.
    rewrite decide_False; [done|]. tauto.
  - rewrite bool_decide_eq_false_2 by done.
    rewrite decide_True; [|done]. by f_equal.
Qed.

Lemma non_marginalized_steps (l : list cid) (d : list (cid * cid)) :
  length l * (1 + length (Dict.keys d)) ≤ (non_marginalized l d).2 ∧
  (non_marginalized l d).2 ≤ length l * (1 + 2 * length (Dict.keys d)).
Proof.
  induction l as [|node l IH]; simpl; [lia|].
  pose proof (list_contains_comparisons node (Dict.keys d)) as Hcmp.
  destruct (list_contains node (Dict.keys d)) as [found comparisons].
  destruct (non_marginalized l d) as [rest steps]; simpl in *. lia.
Qed.

(** ** [marginalize] *)


Lemma marginalize_given self model_var q_dist s m :
  model_heap s !! self = Some m →
  marginalize self model_var (Some q_dist) s =
    Ok tt (mkState (comp_heap s)
             (<[self := marginalized model_var q_dist m]> (model_heap s))).
Proof.
  intros Hm. unfold marginalize, bind, ret, get_model, put_model; simpl.
  rewrite Hm; simpl. rewrite lookup_insert_eq; simpl. by rewrite insert_insert_eq.
Qed.

Lemma marginalize_default self model_var s m v :
  model_heap s !! self = Some m →
  comp_heap s !! model_var = Some v →
  let q_dist := fresh (dom (comp_heap s)) in
  marginalize self model_var None s =
    Ok tt (mkState (<[q_dist := _default_variational_model v]> (comp_heap s))
             (<[self := marginalized model_var q_dist m]> (model_heap s))).
Proof.
  intros Hm Hv q_dist.
  unfold marginalize, bind, ret, get_model, put_model, get_component,
    new_component; simpl.
  rewrite Hv; simpl. rewrite Hm; simpl.
  rewrite lookup_insert_eq; simpl. by rewrite insert_insert_eq.
Qed.

Lemma observe_unfold self model_var val s m v :
  model_heap s !! self = Some m →
  comp_heap s !! model_var = Some v →
  let q_dist := fresh (dom (comp_heap s)) in
  observe self model_var val s =
    Ok tt (mkState
             (<[q_dist := WrapperNode (tf_convert_to_tensor val)
                            ("observed_" +:+ Component.name v) None]>
                (comp_heap s))
             (<[self := marginalized model_var q_dist m]> (model_heap s))).
Proof.
  intros Hm Hv q_dist. unfold observe, bind, get_component, new_component.
  rewrite Hv; simpl. by rewrite (marginalize_given _ _ _ _ m).
Qed.

End facts.

Section extend_facts.
Context `{Collaborators}.
Implicit Types (s : State) (m : JointModel.t) (c : Component.t).

Lemma state_eta s : mkState (comp_heap s) (model_heap s) = s.
Proof. by destruct s. Qed.

(** ** [extend] *)

Lemma extend_loop self d l s m :
  model_heap s !! self = Some m →
  for_each l (λ '(param, node),
    m <- get_model self ;;
    if decide (node ∈ JointModel._components m) then ret tt
    else put_model self
           (JointModel.set_inputs_random
              (<[(d, param) := node]> (JointModel.inputs_random m)) m)) s =
  Ok tt (mkState (comp_heap s)
           (<[self := JointModel.set_inputs_random
                        (register_free_inputs d (JointModel._components m) l
                           (JointModel.inputs_random m)) m]> (model_heap s))).
Proof.
  revert s m. induction l as [|[param node] l IH]; intros s m Hm; simpl.
  - unfold ret. f_equal. rewrite insert_id; [apply symmetry, state_eta|].
    rewrite Hm. by destruct m.
  - unfold bind at 1. unfold bind at 1. unfold get_model. rewrite Hm.
    destruct (decide (node ∈ JointModel._components m)) as [Hin|Hin].
    + unfold ret at 1. by apply IH.
    + unfold put_model at 1.
      erewrite IH; [|simpl; apply lookup_insert_eq]. simpl.
      by rewrite insert_insert_eq.
Qed.

Lemma extend_ok self d s c m :
  comp_heap s !! d = Some c →
  model_heap s !! self = Some m →
  Component.model c = None ∨ Component.model c = Some self →
  extend self d s =
    Ok tt (mkState (<[d := Component.set_model (Some self) c]> (comp_heap s))
             (<[self := extended d c m]> (model_heap s))).
Proof.
  intros Hc Hm Howner. unfold extend.
  unfold bind at 1. unfold get_component. rewrite Hc.
  assert (∃ s1, match Component.model c with
                | None => put_component d (Component.set_model (Some self) c)
                | Some m' =>
                    if decide (m' = self) then ret tt else raise AssertionError
                end s = Ok tt s1 ∧
                s1 = mkState (<[d := Component.set_model (Some self) c]>
                                (comp_heap s)) (model_heap s))
    as (s1 & Hs1 & ->).
  { destruct Howner as [Hn|Hs]; rewrite ?Hn, ?Hs.
    - eexists; split; [reflexivity|done].
    - rewrite decide_True by done. eexists; split; [reflexivity|].
      rewrite insert_id; [by rewrite state_eta|].
      rewrite Hc. f_equal. destruct c; simpl in *. by subst. }
  unfold bind at 1. rewrite Hs1.
  unfold bind at 1. rewrite (extend_loop _ _ _ _ m) by done. simpl.
  unfold bind, get_model, put_model; simpl. rewrite lookup_insert_eq.
  simpl. by rewrite insert_insert_eq.
Qed.

Lemma extend_foreign self d s c (owner : mid) :
  comp_heap s !! d = Some c →
  Component.model c = Some owner → owner ≠ self →
  extend self d s = Raise AssertionError s.
Proof.
  intros Hc Hown Hne. unfold extend, bind, get_component. rewrite Hc, Hown.
  by rewrite decide_False.
Qed.

Lemma register_free_inputs_lookup d components l i d' param :
  NoDup l.*1 →
  register_free_inputs d components l i !! (d', param) =
    match (list_to_map l : gmap string cid) !! param with
    | Some node =>
        if decide (d' = d ∧ node ∉ components) then Some node
        else i !! (d', param)
    | None => i !! (d', param)
    end.
Proof.
  unfold register_free_inputs. revert i.
  induction l as [|[p0 n0] l IH]; intros i Hnd; simpl; [done|].
  apply NoDup_cons in Hnd as [Hp0 Hnd]. rewrite IH by done.
  destruct (decide (param = p0)) as [->|Hp].
  - rewrite lookup_insert_eq.
    rewrite (not_elem_of_list_to_map_1 _ _ Hp0).
    destruct (decide (n0 ∈ components)).
    + rewrite decide_False; [done|]. tauto.
    + destruct (decide (d' = d)) as [->|Hd].
      * rewrite decide_True by done. by rewrite lookup_insert_eq.
      * rewrite decide_False by tauto. rewrite lookup_insert_ne; [done|].
        congruence.
  - rewrite lookup_insert_ne by done.
    assert ((if decide (n0 ∈ components) then i
             else <[(d, p0):=n0]> i) !! (d', param) = i !! (d', param)) as ->.
    { destruct (decide (n0 ∈ components)); [done|].
      rewrite lookup_insert_ne; [done|]. congruence. }
    done.
Qed.

Lemma extended_inputs_random d c m d' param :
  JointModel.inputs_random (extended d c m) !! (d', param) =
    match Component.inputs_random c !! param with
    | Some node =>
        if decide (d' = d ∧ node ∉ JointModel._components m) then Some node
        else JointModel.inputs_random m !! (d', param)
    | None => JointModel.inputs_random m !! (d', param)
    end.
Proof.
  simpl. rewrite register_free_inputs_lookup by apply NoDup_fst_map_to_list.
  by rewrite list_to_map_to_list.
Qed.

End extend_facts.

Section building_facts.
Context `{Collaborators}.
Implicit Types (s : State) (m : JointModel.t) (c : Component.t).

Lemma init_model name s self s1 :
  __init__ name s = Ok self s1 →
  ∃ name', model_heap s1 !! self = Some (JointModel.mk [] ∅ [] ∅ None ∅ ∅ name')
           ∧ model_heap s !! self = None
           ∧ comp_heap s1 = comp_heap s
           ∧ ∀ other, other ≠ self → model_heap s1 !! other = model_heap s !! other.
Proof.
  unfold __init__, new_model. intros [= <- <-]. eexists. simpl.
  split; [apply lookup_insert_eq|]. split; [|split; [done|]].
  - apply not_elem_of_dom, is_fresh.
  - intros other Hne. by rewrite lookup_insert_ne.
Qed.

(** What a single building call does to the model it is applied to. *)
Lemma do_call_self self cl s m s' :
  model_heap s !! self = Some m →
  state_after (do_call self cl s) = Some s' →
  ∃ m', model_heap s' !! self = Some m' ∧
        JointModel._components_by_key m' = JointModel._components_by_key m ∧
        ∀ v, v ∈ Dict.keys (JointModel._explicit_marginalizations m') ↔
             v ∈ passed [cl] ∨
             v ∈ Dict.keys (JointModel._explicit_marginalizations m).
Proof.
  intros Hm. destruct cl as [d|model_var [q_dist|]|model_var val]; simpl.
  - destruct (comp_heap s !! d) as [c|] eqn:Hc.
    + destruct (Component.model c) as [owner|] eqn:Hown.
      * destruct (decide (owner = self)) as [->|Hne].
        -- rewrite (extend_ok _ _ _ c m) by auto. intros [= <-]; simpl.
           rewrite lookup_insert_eq. eexists; split; [done|].
           split; [done|]. intros v. rewrite elem_of_nil. simpl. tauto.
        -- rewrite (extend_foreign _ _ _ c owner) by done. intros [= <-].
           exists m. split; [done|]. split; [done|].
           intros v. rewrite elem_of_nil. tauto.
      * rewrite (extend_ok _ _ _ c m) by auto. intros [= <-]; simpl.
        rewrite lookup_insert_eq. eexists; split; [done|].
        split; [done|]. intros v. rewrite elem_of_nil. simpl. tauto.
    + unfold extend, bind, get_component. by rewrite Hc.
  - rewrite (marginalize_given _ _ _ _ m) by done. intros [= <-]; simpl.
    rewrite lookup_insert_eq. eexists; split; [done|]. split; [done|].
    intros v. simpl. rewrite dict_keys_set, list_elem_of_singleton. tauto.
  - destruct (comp_heap s !! model_var) as [c|] eqn:Hc.
    + rewrite (marginalize_default _ _ _ m c) by done. intros [= <-]; simpl.
      rewrite lookup_insert_eq. eexists; split; [done|]. split; [done|].
      intros v. simpl. rewrite dict_keys_set, list_elem_of_singleton. tauto.
    + unfold marginalize, bind, get_component. by rewrite Hc.
  - destruct (comp_heap s !! model_var) as [c|] eqn:Hc.
    + rewrite (observe_unfold _ _ _ _ m c) by done. intros [= <-]; simpl.
      rewrite lookup_insert_eq. eexists; split; [done|]. split; [done|].
      intros v. simpl. rewrite dict_keys_set, list_elem_of_singleton. tauto.
    + unfold observe, bind, get_component. by rewrite Hc.
Qed.

Lemma passed_app cs1 cs2 : passed (cs1 ++ cs2) = passed cs1 ++ passed cs2.
Proof.
  induction cs1 as [|[d|v q|v val] cs1 IH]; simpl; by rewrite ?IH.
Qed.

Lemma run_self self cs s m s' :
  model_heap s !! self = Some m →
  run self cs s = Some s' →
  ∃ m', model_heap s' !! self = Some m' ∧
        JointModel._components_by_key m' = JointModel._components_by_key m ∧
        ∀ v, v ∈ Dict.keys (JointModel._explicit_marginalizations m') ↔
             v ∈ passed cs ∨
             v ∈ Dict.keys (JointModel._explicit_marginalizations m).
Proof.
  revert s m. induction cs as [|cl cs IH]; intros s m Hm; cbn [run].
  - intros [= <-]. exists m. split; [done|]. split; [done|].
    intros v. simpl. rewrite elem_of_nil. tauto.
  - destruct (state_after (do_call self cl s)) as [s1|] eqn:Hcl; [|done].
    intros Hrun.
    destruct (do_call_self _ _ _ _ _ Hm Hcl) as (m1 & Hm1 & Hk1 & Hp1).
    destruct (IH _ _ Hm1 Hrun) as (m' & Hm' & Hk' & Hp').
    exists m'. split; [done|]. split; [congruence|].
    intros v. rewrite Hp', Hp1.
    change (cl :: cs) with ([cl] ++ cs). rewrite passed_app, elem_of_app.
    tauto.
Qed.

End building_facts.

Section monad_facts.
Context `{Backend}.

Lemma bind_Ok {A B} (c : M A) (k : A → M B) s a s1 :
  c s = Ok a s1 → bind c k s = k a s1.
Proof. unfold bind. by intros ->. Qed.

Lemma bind_Raise_inv {A B} (c : M A) (k : A → M B) s e s' :
  bind c k s = Raise e s' →
  c s = Raise e s' ∨ ∃ a s1, c s = Ok a s1 ∧ k a s1 = Raise e s'.
Proof.
  unfold bind. destruct (c s) as [a s1|e1 s1|]; [|intros [= -> ->]; by left|done].
  intros Hk. right. by exists a, s1.
Qed.

Lemma bind_Ok_inv {A B} (c : M A) (k : A → M B) s b s' :
  bind c k s = Ok b s' → ∃ a s1, c s = Ok a s1 ∧ k a s1 = Ok b s'.
Proof.
  unfold bind. destruct (c s) as [a s1|e1 s1|]; [|done..].
  intros Hk. by exists a, s1.
Qed.

(** ** Methods that only read *)

Lemma read_only_ret {A} (a : A) : read_only (ret a).
Proof. by intros s. Qed.

Lemma read_only_raise {A} e : read_only (raise (A:=A) e).
Proof. by intros s. Qed.

Lemma read_only_bind {A B} (c : M A) (k : A → M B) :
  read_only c → (∀ a, read_only (k a)) → read_only (bind c k).
Proof.
  intros Hc Hk s. unfold bind. specialize (Hc s).
  destruct (c s) as [a s1|e s1|]; subst; [apply Hk|done..].
Qed.

Lemma read_only_get_component d : read_only (get_component d).
Proof. intros s. unfold get_component. by destruct (comp_heap s !! d). Qed.

Lemma read_only_get_model self : read_only (get_model self).
Proof. intros s. unfold get_model. by destruct (model_heap s !! self). Qed.

Lemma read_only_getitem {V} (o : option V) : read_only (getitem o).
Proof. destruct o; [apply read_only_ret|apply read_only_raise]. Qed.

Lemma read_only_query {A} (f : State → A) : read_only (λ s, Ok (f s) s).
Proof. by intros s. Qed.

Lemma read_only_try_except {A} (body handler : M A) :
  read_only body → read_only handler →
  read_only (try_except_KeyError body handler).
Proof.
  intros Hb Hh s. unfold try_except_KeyError. specialize (Hb s).
  destruct (body s) as [a s1|[] s1|]; subst; try done. apply Hh.
Qed.

Lemma read_only_for_collect {A B} (l : list A) (body : A → M B) :
  (∀ x, read_only (body x)) → read_only (for_collect l body).
Proof.
  intros Hb. induction l as [|x l IH]; simpl; [apply read_only_ret|].
  apply read_only_bind; [done|]. intros y.
  apply read_only_bind; [done|]. intros ys. apply read_only_ret.
Qed.

Lemma read_only_for_fold {A B} (l : list A) (body : B → A → M B) acc :
  (∀ acc x, read_only (body acc x)) → read_only (for_fold l body acc).
Proof.
  intros Hb. revert acc. induction l as [|x l IH]; intros acc; simpl;
    [apply read_only_ret|].
  apply read_only_bind; [done|]. intros acc'. apply IH.
Qed.

Lemma read_only_Ok {A} (c : M A) s a s' :
  read_only c → c s = Ok a s' → s' = s.
Proof. intros Hc Hs. specialize (Hc s). by rewrite Hs in Hc. Qed.

Lemma read_only_Raise {A} (c : M A) s e s' :
  read_only c → c s = Raise e s' → s' = s.
Proof. intros Hc Hs. specialize (Hc s). by rewrite Hs in Hc. Qed.

(** ** Methods that raise no KeyError *)

Lemma no_KeyError_ret {A} (a : A) : no_KeyError (ret a).
Proof. by intros s s'. Qed.

Lemma no_KeyError_AssertionError {A} :
  no_KeyError (raise (A:=A) AssertionError).
Proof. by intros s s'. Qed.

Lemma no_KeyError_bind {A B} (c : M A) (k : A → M B) :
  no_KeyError c → (∀ a, no_KeyError (k a)) → no_KeyError (bind c k).
Proof.
  intros Hc Hk s s' Hr. apply bind_Raise_inv in Hr as [Hr|(a & s1 & _ & Hr)].
  - by apply Hc in Hr.
  - by apply Hk in Hr.
Qed.

Lemma no_KeyError_get_component d : no_KeyError (get_component d).
Proof. intros s s'. unfold get_component. by destruct (comp_heap s !! d). Qed.

Lemma no_KeyError_get_model self : no_KeyError (get_model self).
Proof. intros s s'. unfold get_model. by destruct (model_heap s !! self). Qed.

Lemma no_KeyError_put_component d c : no_KeyError (put_component d c).
Proof. by intros s s'. Qed.

Lemma no_KeyError_put_model self m : no_KeyError (put_model self m).
Proof. by intros s s'. Qed.

Lemma no_KeyError_query {A} (f : State → A) : no_KeyError (λ s, Ok (f s) s).
Proof. by intros s s'. Qed.

Lemma no_KeyError_try_except {A} (body handler : M A) :
  no_KeyError handler → no_KeyError (try_except_KeyError body handler).
Proof.
  intros Hh s s'. unfold try_except_KeyError.
  destruct (body s) as [a s1|[] s1|]; first [apply Hh|done].
Qed.

Lemma no_KeyError_for_each {A} (l : list A) (body : A → M unit) :
  (∀ x, no_KeyError (body x)) → no_KeyError (for_each l body).
Proof.
  intros Hb. induction l as [|x l IH]; simpl; [apply no_KeyError_ret|].
  apply no_KeyError_bind; [done|]. by intros _.
Qed.

Lemma no_KeyError_for_collect {A B} (l : list A) (body : A → M B) :
  (∀ x, no_KeyError (body x)) → no_KeyError (for_collect l body).
Proof.
  intros Hb. induction l as [|x l IH]; simpl; [apply no_KeyError_ret|].
  apply no_KeyError_bind; [done|]. intros y.
  apply no_KeyError_bind; [done|]. intros ys. apply no_KeyError_ret.
Qed.

Lemma no_KeyError_for_fold {A B} (l : list A) (body : B → A → M B) acc :
  (∀ acc x, no_KeyError (body acc x)) → no_KeyError (for_fold l body acc).
Proof.
  intros Hb. revert acc. induction l as [|x l IH]; intros acc; simpl;
    [apply no_KeyError_ret|].
  apply no_KeyError_bind; [done|]. intros acc'. apply IH.
Qed.

(** ** Loops over read-only bodies *)

Lemma for_collect_Ok {A B} (l : list A) (body : A → M B) (f : A → B) s :
  Forall (λ x, body x s = Ok (f x) s) l →
  for_collect l body s = Ok (f <$> l) s.
Proof.
  induction 1 as [|x l Hx _ IH]; simpl; [done|].
  rewrite (bind_Ok _ _ _ _ _ Hx). by rewrite (bind_Ok _ _ _ _ _ IH).
Qed.

Lemma for_collect_Raise_inv {A B} (l : list A) (body : A → M B) s e s' :
  (∀ x, read_only (body x)) →
  for_collect l body s = Raise e s' →
  ∃ x, x ∈ l ∧ body x s = Raise e s'.
Proof.
  intros Hro. induction l as [|x l IH]; simpl; [done|].
  intros Hr. apply bind_Raise_inv in Hr as [Hr|(y & s1 & Hy & Hr)].
  - exists x. split; [apply elem_of_cons; by left|done].
  - apply read_only_Ok in Hy as Hs1; [subst s1|done].
    apply bind_Raise_inv in Hr as [Hr|(ys & s2 & Hys & Hr)]; [|done].
    destruct (IH Hr) as (x' & Hin & Hx'). exists x'.
    split; [apply elem_of_cons; by right|done].
Qed.

Lemma for_collect_Raise {A B} (l : list A) (body : A → M B) s e :
  Forall (λ x, (∃ y, body x s = Ok y s) ∨ body x s = Raise e s) l →
  Exists (λ x, body x s = Raise e s) l →
  for_collect l body s = Raise e s.
Proof.
  intros Hall Hex. induction Hex as [x l Hx|x l Hex IH]; simpl.
  - unfold bind. by rewrite Hx.
  - apply Forall_cons in Hall as [[[y Hy]|Hx] Hall].
    + rewrite (bind_Ok _ _ _ _ _ Hy). unfold bind. by rewrite IH.
    + unfold bind. by rewrite Hx.
Qed.

End monad_facts.

Section query_facts.
Context `{Collaborators}.
Implicit Types (s : State) (m : JointModel.t) (c : Component.t).

Lemma topo_sorted_Ok self s m :
  model_heap s !! self = Some m →
  _topo_sorted self s = Ok (JointModel._components m) s.
Proof. intros Hm. unfold _topo_sorted, bind, get_model. by rewrite Hm. Qed.

Lemma read_only_topo_sorted self : read_only (_topo_sorted self).
Proof.
  apply read_only_bind; [apply read_only_get_model|].
  intros m. apply read_only_ret.
Qed.

Lemma no_KeyError_topo_sorted self : no_KeyError (_topo_sorted self).
Proof.
  apply no_KeyError_bind; [apply no_KeyError_get_model|].
  intros m. apply no_KeyError_ret.
Qed.

(** ** [outputs] *)

Lemma outputs_Ok self s m :
  model_heap s !! self = Some m →
  outputs self s =
    Ok (filter (λ node, node ∉ Dict.keys (JointModel._explicit_marginalizations m))
               (JointModel._components m)) s.
Proof.
  intros Hm. unfold outputs, bind, get_model, ret. rewrite Hm.
  by rewrite non_marginalized_filter.
Qed.

(** ** [_sample] *)

Lemma read_only_sample self input_vals : read_only (_sample self input_vals).
Proof.
  apply read_only_bind; [apply read_only_topo_sorted|]. intros l.
  apply read_only_bind; [|intros r; apply read_only_ret].
  apply read_only_for_fold. intros [rs sv] d.
  apply read_only_bind; [apply read_only_get_component|].
  intros c. apply read_only_ret.
Qed.

Lemma no_KeyError_sample self input_vals : no_KeyError (_sample self input_vals).
Proof.
  apply no_KeyError_bind; [apply no_KeyError_topo_sorted|]. intros l.
  apply no_KeyError_bind; [|intros r; apply no_KeyError_ret].
  apply no_KeyError_for_fold. intros [rs sv] d.
  apply no_KeyError_bind; [apply no_KeyError_get_component|].
  intros c. apply no_KeyError_ret.
Qed.

Lemma sample_loop_Ok (l : list cid) s
    (acc : gmap nat Source * gmap (mid * string + string) Tensor) :
  Forall (allocated s) l →
  ∃ r, for_fold l (λ '(random_sources, sampled_vals) component,
         c <- get_component component ;;
         ret (Component._sampled_source c ∪ random_sources,
              <[inr (Component.name c) := Component._sampled c]> sampled_vals))
       acc s = Ok r s.
Proof.
  intros Hall. revert acc.
  induction Hall as [|d l [c Hc] _ IH]; intros [rs sv]; simpl.
  - by eexists.
  - unfold bind at 1. unfold bind at 1. unfold get_component. rewrite Hc.
    unfold ret at 1. apply IH.
Qed.

Lemma sample_Ok self input_vals s m :
  model_heap s !! self = Some m →
  Forall (allocated s) (JointModel._components m) →
  ∃ r, _sample self input_vals s = Ok r s.
Proof.
  intros Hm Hall. unfold _sample.
  rewrite (bind_Ok _ _ _ _ _ (topo_sorted_Ok _ _ _ Hm)).
  destruct (sample_loop_Ok _ s
              (∅, kmap (λ param, inl (self, param)) input_vals) Hall)
    as [r Hr].
  rewrite (bind_Ok _ _ _ _ _ Hr). by eexists.
Qed.

(** ** [_entropy_lower_bound] *)

Lemma read_only_entropy self : read_only (_entropy_lower_bound self).
Proof.
  apply read_only_bind; [apply read_only_topo_sorted|]. intros l.
  apply read_only_bind; [|intros r; apply read_only_ret].
  apply read_only_for_collect. intros d.
  apply read_only_bind; [apply read_only_get_component|]. intros c.
  apply read_only_bind; [|intros r; apply read_only_query].
  apply read_only_for_collect. intros [param node].
  apply read_only_bind; [apply read_only_get_component|].
  intros n. apply read_only_ret.
Qed.

Lemma no_KeyError_entropy self : no_KeyError (_entropy_lower_bound self).
Proof.
  apply no_KeyError_bind; [apply no_KeyError_topo_sorted|]. intros l.
  apply no_KeyError_bind; [|intros r; apply no_KeyError_ret].
  apply no_KeyError_for_collect. intros d.
  apply no_KeyError_bind; [apply no_KeyError_get_component|]. intros c.
  apply no_KeyError_bind; [|intros r; apply no_KeyError_query].
  apply no_KeyError_for_collect. intros [param node].
  apply no_KeyError_bind; [apply no_KeyError_get_component|].
  intros n. apply no_KeyError_ret.
Qed.

Lemma input_samples_Ok s (l : list (string * cid)) :
  Forall (λ pn, allocated s pn.2) l →
  for_collect l (λ '(param, sourcenode),
      n <- get_component sourcenode ;;
      ret (param, Component._sampled n)) s =
    Ok (omap (input_sample s) l) s.
Proof.
  induction 1 as [|[param node] l [n Hn] _ IH]; simpl in *; [done|].
  assert ((n <- get_component node ;; ret (param, Component._sampled n)) s
          = Ok (param, Component._sampled n) s) as Hhead.
  { unfold bind, get_component. by rewrite Hn. }
  rewrite (bind_Ok _ _ _ _ _ Hhead), (bind_Ok _ _ _ _ _ IH).
  unfold input_sample; simpl. by rewrite Hn.
Qed.

Lemma input_samples_fst s (l : list (string * cid)) param :
  param ∈ (omap (input_sample s) l).*1 → param ∈ l.*1.
Proof.
  induction l as [|[p node] l IH]; simpl; [done|].
  unfold input_sample at 1; simpl.
  destruct (comp_heap s !! node); simpl; rewrite !elem_of_cons; naive_solver.
Qed.

Lemma input_samples_NoDup s (l : list (string * cid)) :
  NoDup l.*1 → NoDup (omap (input_sample s) l).*1.
Proof.
  induction l as [|[p node] l IH]; simpl; [done|].
  intros [Hp Hnd]%NoDup_cons. unfold input_sample at 1; simpl.
  destruct (comp_heap s !! node); simpl; [|by apply IH].
  apply NoDup_cons. split; [|by apply IH].
  intros Hin. by apply Hp, (input_samples_fst s).
Qed.

Lemma input_samples_to_map s c :
  list_to_map (omap (input_sample s) (map_to_list (Component.inputs_random c)))
  = random_input_samples s c.
Proof.
  apply map_eq. intros param. apply option_eq. intros t.
  unfold random_input_samples. rewrite lookup_omap_Some.
  rewrite <-elem_of_list_to_map
    by apply input_samples_NoDup, NoDup_fst_map_to_list.
  rewrite list_elem_of_omap. split.
  - intros ([p node] & Hin & Hsome). apply elem_of_map_to_list in Hin.
    unfold input_sample in Hsome. simpl in Hsome.
    destruct (comp_heap s !! node) as [n|] eqn:Hn; simplify_eq/=.
    exists node. by rewrite Hn.
  - intros (node & Hsome & Hp).
    exists (param, node). split; [by apply elem_of_map_to_list|].
    unfold input_sample. simpl.
    destruct (comp_heap s !! node) as [n|]; by simplify_eq/=.
Qed.

Lemma entropy_Ok self s m :
  model_heap s !! self = Some m →
  Forall (component_closed s) (JointModel._components m) →
  _entropy_lower_bound self s =
    Ok (tf_sum (component_entropy s <$> JointModel._components m)) s.
Proof.
  intros Hm Hall. unfold _entropy_lower_bound.
  rewrite (bind_Ok _ _ _ _ _ (topo_sorted_Ok _ _ _ Hm)).
  erewrite bind_Ok; [reflexivity|]. apply for_collect_Ok.
  eapply Forall_impl; [exact Hall|]. intros d (c & Hc & Hin). simpl.
  unfold bind at 1. unfold get_component. rewrite Hc.
  erewrite bind_Ok; [|apply input_samples_Ok].
  - unfold component_entropy. by rewrite Hc, input_samples_to_map.
  - apply map_Forall_to_list in Hin.
    eapply Forall_impl; [exact Hin|]. by intros [p node].
Qed.

End query_facts.

Section logp_facts.
Context `{Collaborators}.
Implicit Types (s : State) (m : JointModel.t) (c : Component.t).

(** ** The loops of [_logp] *)

Lemma collect_loop_Ok self c s m (l : list string) (acc : gmap string cid) :
  model_heap s !! self = Some m →
  for_fold l (λ component_qs param,
    try_except_KeyError
      (m <- get_model self ;;
       node <- getitem (Component.inputs_random c !! param) ;;
       q_dist <- getitem
                   (Dict.get node (JointModel._explicit_marginalizations m)) ;;
       ret (<["q_" +:+ param := q_dist]> component_qs))
      (ret component_qs)) acc s =
  Ok (foldl (λ component_qs param,
               match input_marginalization
                       (JointModel._explicit_marginalizations m) c param with
               | Some q_dist => <["q_" +:+ param := q_dist]> component_qs
               | None => component_qs
               end) acc l) s.
Proof.
  intros Hm. revert acc. induction l as [|param l IH]; intros acc; [done|].
  cbn [for_fold foldl]. erewrite bind_Ok; [apply IH|].
  unfold try_except_KeyError, bind, get_model, input_marginalization.
  rewrite Hm.
  destruct (Component.inputs_random c !! param) as [node|]; simpl; [|done].
  by destruct (Dict.get node (JointModel._explicit_marginalizations m)).
Qed.

Lemma collect_component_qs_Ok self c s m :
  model_heap s !! self = Some m →
  collect_component_qs self c s =
    Ok (collected_qs (JointModel._explicit_marginalizations m) c) s.
Proof. intros Hm. by apply collect_loop_Ok. Qed.

Lemma read_only_collect_component_qs self c :
  read_only (collect_component_qs self c).
Proof.
  apply read_only_for_fold. intros acc param.
  apply read_only_try_except; [|apply read_only_ret].
  apply read_only_bind; [apply read_only_get_model|]. intros m.
  apply read_only_bind; [apply read_only_getitem|]. intros node.
  apply read_only_bind; [apply read_only_getitem|]. intros q.
  apply read_only_ret.
Qed.

Lemma no_KeyError_collect_component_qs self c :
  no_KeyError (collect_component_qs self c).
Proof.
  apply no_KeyError_for_fold. intros acc param.
  apply no_KeyError_try_except, no_KeyError_ret.
Qed.

Lemma read_only_logp_component self d : read_only (_logp_component self d).
Proof.
  apply read_only_bind; [apply read_only_get_component|]. intros c.
  apply read_only_bind; [apply read_only_collect_component_qs|]. intros qs.
  apply read_only_bind; [apply read_only_get_model|]. intros m.
  apply read_only_bind; [apply read_only_getitem|]. intros q.
  apply read_only_query.
Qed.

Lemma logp_component_Ok self d s m c q_dist :
  model_heap s !! self = Some m →
  comp_heap s !! d = Some c →
  Dict.get d (JointModel._explicit_marginalizations m) = Some q_dist →
  _logp_component self d s =
    Ok (component_expected_logp (JointModel._explicit_marginalizations m) s d) s.
Proof.
  intros Hm Hc Hq. unfold _logp_component.
  unfold bind at 1. unfold get_component. rewrite Hc.
  rewrite (bind_Ok _ _ _ _ _ (collect_component_qs_Ok _ _ _ _ Hm)).
  unfold bind, get_model. rewrite Hm, Hq. simpl.
  unfold component_expected_logp, variational_components. by rewrite Hc, Hq.
Qed.

Lemma logp_component_KeyError self d s m c :
  model_heap s !! self = Some m →
  comp_heap s !! d = Some c →
  Dict.get d (JointModel._explicit_marginalizations m) = None →
  _logp_component self d s = Raise KeyError s.
Proof.
  intros Hm Hc Hq. unfold _logp_component.
  unfold bind at 1. unfold get_component. rewrite Hc.
  rewrite (bind_Ok _ _ _ _ _ (collect_component_qs_Ok _ _ _ _ Hm)).
  unfold bind, get_model. by rewrite Hm, Hq.
Qed.

Lemma logp_component_KeyError_inv self d s s' m :
  model_heap s !! self = Some m →
  _logp_component self d s = Raise KeyError s' →
  Dict.get d (JointModel._explicit_marginalizations m) = None.
Proof.
  intros Hm Hr. unfold _logp_component in Hr.
  apply bind_Raise_inv in Hr as [Hr|(c & s1 & Hc & Hr)];
    [by apply no_KeyError_get_component in Hr|].
  apply read_only_Ok in Hc as ->; [|apply read_only_get_component].
  apply bind_Raise_inv in Hr as [Hr|(qs & s1 & Hqs & Hr)];
    [by apply no_KeyError_collect_component_qs in Hr|].
  apply read_only_Ok in Hqs as ->; [|apply read_only_collect_component_qs].
  revert Hr. unfold bind, get_model. rewrite Hm.
  by destruct (Dict.get d (JointModel._explicit_marginalizations m)).
Qed.

(** The entries of [collected_qs]: one for each input parameter whose
    supplier is random and marginalized, none for the others. *)
Lemma collected_qs_lookup (marg : list (cid * cid)) c (k : string)
    (q_dist : cid) :
  collected_qs marg c !! k = Some q_dist ↔
  ∃ param, param ∈ Component.inputs_keys c ∧ k = "q_" +:+ param ∧
           input_marginalization marg c param = Some q_dist.
Proof.
  unfold collected_qs.
  assert (∀ l (acc : gmap string cid),
    foldl (λ component_qs param,
             match input_marginalization marg c param with
             | Some q => <["q_" +:+ param := q]> component_qs
             | None => component_qs
             end) acc l !! k = Some q_dist ↔
    (∃ param, param ∈ l ∧ k = "q_" +:+ param ∧
              input_marginalization marg c param = Some q_dist) ∨
    (acc !! k = Some q_dist ∧
     ∀ param, param ∈ l → k = "q_" +:+ param →
              input_marginalization marg c param = None)) as Hgen.
  { induction l as [|p l IH]; intros acc; simpl.
    - split; [intros Hk; right; split; [done|]; by intros ? ?%elem_of_nil|].
      intros [(? & ?%elem_of_nil & _)|[? _]]; done.
    - rewrite IH. clear IH. split.
      + intros [(param & Hin & -> & Hq)|[Hacc Hnone]].
        * left. exists param. rewrite elem_of_cons. auto.
        * destruct (input_marginalization marg c p) as [q|] eqn:Hp.
          -- destruct (decide (k = "q_" +:+ p)) as [->|Hne].
             ++ rewrite lookup_insert_eq in Hacc. simplify_eq.
                left. exists p. rewrite elem_of_cons. auto.
             ++ rewrite lookup_insert_ne in Hacc by done.
                right. split; [done|]. intros param [->|Hin]%elem_of_cons Hk;
                  [done|by apply Hnone].
          -- right. split; [done|].
             intros param [->|Hin]%elem_of_cons Hk; [done|by apply Hnone].
      + intros [(param & [->|Hin]%elem_of_cons & -> & Hq)|[Hacc Hnone]].
        * destruct (decide (p ∈ l)) as [Hin|Hno].
          -- left. by exists p.
          -- right. rewrite Hq, lookup_insert_eq. split; [done|].
             intros param Hin Heq. by simplify_eq/=.
        * left. by exists param.
        * right. split.
          -- destruct (input_marginalization marg c p) as [q|] eqn:Hp; [|done].
             rewrite lookup_insert_ne; [done|]. intros <-.
             specialize (Hnone p). rewrite elem_of_cons in Hnone.
             rewrite Hp in Hnone. by discriminate Hnone; auto.
          -- intros param Hin. apply Hnone. rewrite elem_of_cons. auto. }
  rewrite Hgen, lookup_empty. naive_solver.
Qed.

End logp_facts.

Section variational_model_facts.
Context `{Collaborators}.
Implicit Types (s : State) (m : JointModel.t) (c : Component.t).

(** ** Stores that agree up to owners *)

Lemma same_attrs_refl c : Component.same_attrs c c.
Proof. by repeat split. Qed.

Lemma same_attrs_trans c1 c2 c3 :
  Component.same_attrs c1 c2 → Component.same_attrs c2 c3 →
  Component.same_attrs c1 c3.
Proof.
  intros (?&?&?&?&?) (?&?&?&?&?). repeat split; congruence.
Qed.

Lemma attrs_preserved_refl owner s : attrs_preserved owner s s.
Proof.
  intros d. destruct (comp_heap s !! d); [|done].
  split; [apply same_attrs_refl|by left].
Qed.

Lemma attrs_preserved_trans owner s1 s2 s3 :
  attrs_preserved owner s1 s2 → attrs_preserved owner s2 s3 →
  attrs_preserved owner s1 s3.
Proof.
  intros H12 H23 d. specialize (H12 d). specialize (H23 d).
  destruct (comp_heap s1 !! d), (comp_heap s2 !! d), (comp_heap s3 !! d);
    try done.
  destruct H12 as [Ha12 Ho12], H23 as [Ha23 Ho23].
  split; [by eapply same_attrs_trans|].
  destruct Ho23 as [-> | ->]; auto.
Qed.

Lemma attrs_preserved_models owner s mh :
  attrs_preserved owner s (mkState (comp_heap s) mh).
Proof.
  intros d. simpl. destruct (comp_heap s !! d); [|done].
  split; [apply same_attrs_refl|by left].
Qed.

Lemma attrs_preserved_set_model owner s d c mh :
  comp_heap s !! d = Some c →
  attrs_preserved owner s
    (mkState (<[d := Component.set_model (Some owner) c]> (comp_heap s)) mh).
Proof.
  intros Hc d'. simpl. destruct (decide (d = d')) as [<-|Hne].
  - rewrite lookup_insert_eq, Hc. split; [by repeat split|by right].
  - rewrite lookup_insert_ne by done.
    destruct (comp_heap s !! d'); [|done].
    split; [apply same_attrs_refl|by left].
Qed.

Lemma attrs_preserved_allocated owner s s' d :
  attrs_preserved owner s s' → allocated s d → allocated s' d.
Proof.
  intros Hp [c Hc]. specialize (Hp d). rewrite Hc in Hp.
  destruct (comp_heap s' !! d) eqn:Hd; [|done].
  unfold allocated. rewrite Hd. by eexists.
Qed.

Lemma attrs_preserved_closed owner s s' d :
  attrs_preserved owner s s' → component_closed s d → component_closed s' d.
Proof.
  intros Hp (c & Hc & Hin). pose proof (Hp d) as Hd. rewrite Hc in Hd.
  destruct (comp_heap s' !! d) as [c'|] eqn:Hc'; [|done].
  destruct Hd as [(_ & _ & Hir & _) _].
  exists c'. split; [done|]. rewrite <-Hir.
  eapply map_Forall_impl; [exact Hin|].
  intros ? node. by apply (attrs_preserved_allocated owner).
Qed.

(** ** [extend], read backwards *)

Lemma extend_unallocated self d s c :
  comp_heap s !! d = Some c →
  Component.model c = None ∨ Component.model c = Some self →
  model_heap s !! self = None →
  extend self d s = Stuck.
Proof.
  intros Hc Hown Hm. unfold extend.
  unfold bind at 1. unfold get_component. rewrite Hc.
  assert (∃ s1, match Component.model c with
                | None => put_component d (Component.set_model (Some self) c)
                | Some m' =>
                    if decide (m' = self) then ret tt else raise AssertionError
                end s = Ok tt s1 ∧ model_heap s1 !! self = None)
    as (s1 & Hs1 & Hm1).
  { destruct Hown as [->| ->]; [by eexists|].
    rewrite decide_True by done. by eexists. }
  rewrite (bind_Ok _ _ _ _ _ Hs1).
  destruct (map_to_list (Component.inputs_random c)) as [|[param node] l];
    simpl; unfold bind, get_model; simpl; by rewrite Hm1.
Qed.

Lemma extend_Ok_inv self d s s' :
  extend self d s = Ok tt s' →
  ∃ c m, comp_heap s !! d = Some c ∧ model_heap s !! self = Some m ∧
         (Component.model c = None ∨ Component.model c = Some self) ∧
         s' = mkState (<[d := Component.set_model (Some self) c]> (comp_heap s))
                (<[self := extended d c m]> (model_heap s)).
Proof.
  intros Hext. destruct (comp_heap s !! d) as [c|] eqn:Hc.
  - assert (Component.model c = None ∨ Component.model c = Some self) as Hown.
    { destruct (Component.model c) as [owner|] eqn:Hown; [|by left].
      destruct (decide (owner = self)) as [->|Hne]; [by right|].
      by rewrite (extend_foreign _ _ _ c owner) in Hext. }
    destruct (model_heap s !! self) as [m|] eqn:Hm.
    + rewrite (extend_ok _ _ _ c m) in Hext by done.
      exists c, m. by simplify_eq.
    + by rewrite (extend_unallocated _ _ _ c) in Hext.
  - unfold extend, bind, get_component in Hext. by rewrite Hc in Hext.
Qed.

Lemma no_KeyError_extend self d : no_KeyError (extend self d).
Proof.
  apply no_KeyError_bind; [apply no_KeyError_get_component|]. intros c.
  apply no_KeyError_bind.
  { destruct (Component.model c) as [owner|]; [|apply no_KeyError_put_component].
    destruct (decide (owner = self));
      [apply no_KeyError_ret|apply no_KeyError_AssertionError]. }
  intros _. apply no_KeyError_bind.
  { apply no_KeyError_for_each. intros [param node].
    apply no_KeyError_bind; [apply no_KeyError_get_model|]. intros m.
    destruct (decide (node ∈ JointModel._components m));
      [apply no_KeyError_ret|apply no_KeyError_put_model]. }
  intros _. apply no_KeyError_bind; [apply no_KeyError_get_model|].
  intros m. apply no_KeyError_put_model.
Qed.

(** ** The loop of [variational_model] *)

Lemma build_loop_frame vm (l : list (cid * cid)) s s' :
  for_each l (λ '(vname, qdist), extend vm qdist) s = Ok tt s' →
  ∀ other, other ≠ vm → model_heap s' !! other = model_heap s !! other.
Proof.
  revert s. induction l as [|[v q] l IH]; intros s; simpl.
  - by intros [= <-].
  - intros (u & s1 & Hext & Hrest)%bind_Ok_inv other Hne. destruct u.
    apply extend_Ok_inv in Hext as (c & m & _ & _ & _ & ->).
    rewrite (IH _ Hrest other Hne). simpl. by rewrite lookup_insert_ne.
Qed.

Lemma build_loop_Ok vm (l : list (cid * cid)) s mv :
  model_heap s !! vm = Some mv →
  Forall (λ q_dist, ∃ c, comp_heap s !! q_dist = Some c ∧
                         (Component.model c = None ∨
                          Component.model c = Some vm)) l.*2 →
  ∃ s' mv',
    for_each l (λ '(vname, qdist), extend vm qdist) s = Ok tt s' ∧
    model_heap s' !! vm = Some mv' ∧
    JointModel._components mv' = (JointModel._components mv ++ l.*2)%list ∧
    attrs_preserved vm s s'.
Proof.
  revert s mv. induction l as [|[v q] l IH]; intros s mv Hmv Hall; simpl.
  - exists s, mv. rewrite app_nil_r.
    split; [done|]. split; [done|]. split; [done|].
    apply attrs_preserved_refl.
  - simpl in Hall. apply Forall_cons in Hall as [(c & Hc & Hown) Hall].
    pose proof (extend_ok vm q s c mv Hc Hmv Hown) as Hext.
    rewrite (bind_Ok _ _ _ _ _ Hext).
    edestruct (IH (mkState (<[q := Component.set_model (Some vm) c]> (comp_heap s))
                     (<[vm := extended q c mv]> (model_heap s))))
      as (s' & mv' & Hloop & Hmv' & Hcomps & Hpres).
    { simpl. apply lookup_insert_eq. }
    { eapply Forall_impl; [exact Hall|]. intros q' (c' & Hc' & Hown'). simpl.
      destruct (decide (q = q')) as [<-|Hne].
      - rewrite lookup_insert_eq. eexists. split; [done|]. by right.
      - rewrite lookup_insert_ne by done. by exists c'. }
    exists s', mv'. split; [done|]. split; [done|]. split.
    + rewrite Hcomps. simpl. by rewrite <-app_assoc.
    + eapply attrs_preserved_trans; [|exact Hpres].
      by apply attrs_preserved_set_model.
Qed.

(** ** [variational_model] *)

Lemma variational_model_cached self s m vm :
  model_heap s !! self = Some m →
  JointModel._explicit_variational_model m = Some vm →
  variational_model self s = Ok vm s.
Proof.
  intros Hm Hvm. unfold variational_model, bind, get_model.
  by rewrite Hm, Hvm.
Qed.

Lemma variational_model_built self s m :
  model_heap s !! self = Some m →
  JointModel._explicit_variational_model m = None →
  Forall (λ q_dist, ∃ c, comp_heap s !! q_dist = Some c ∧
                         Component.model c = None)
         (Dict.values (JointModel._explicit_marginalizations m)) →
  ∃ vm s1 mv,
    variational_model self s = Ok vm s1 ∧
    model_heap s !! vm = None ∧
    model_heap s1 !! self =
      Some (JointModel.set_explicit_variational_model (Some vm) m) ∧
    model_heap s1 !! vm = Some mv ∧
    JointModel._components mv =
      (items (JointModel._explicit_marginalizations m)).*2 ∧
    attrs_preserved vm s s1.
Proof.
  intros Hm Hcache Hall.
  set (vm := fresh (dom (model_heap s))).
  assert (model_heap s !! vm = None) as Hfresh
    by apply not_elem_of_dom, is_fresh.
  assert (vm ≠ self) as Hne by congruence.
  set (name := String.substring 0 6 (uuid4_hex vm)).
  set (mv0 := JointModel.mk [] ∅ [] ∅ None ∅ ∅ name).
  set (s0 := mkState (comp_heap s) (<[vm := mv0]> (model_heap s))).
  destruct (build_loop_Ok vm (items (JointModel._explicit_marginalizations m))
              s0 mv0) as (s' & mv & Hloop & Hmv & Hcomps & Hpres).
  { apply lookup_insert_eq. }
  { rewrite (items_Permutation (JointModel._explicit_marginalizations m)).
    eapply Forall_impl; [exact Hall|]. intros q (c & Hc & Hown).
    exists c. split; [done|]. by left. }
  pose proof (build_loop_frame _ _ _ _ Hloop self (not_eq_sym Hne)) as Hself.
  simpl in Hself. rewrite lookup_insert_ne in Hself by done.
  exists vm, (mkState (comp_heap s')
                (<[self := JointModel.set_explicit_variational_model (Some vm) m]>
                   (model_heap s'))), mv.
  split; [|split; [done|]; split; [apply lookup_insert_eq|]; split;
             [simpl; by rewrite lookup_insert_ne|]; split; [done|]].
  - unfold variational_model.
    unfold bind at 1. unfold get_model at 1. rewrite Hm, Hcache.
    unfold bind at 1. unfold __init__, new_model.
    fold vm. fold name. fold mv0. fold s0.
    unfold bind at 1. unfold get_model at 1. simpl.
    rewrite lookup_insert_ne, Hm by done.
    rewrite (bind_Ok _ _ _ _ _ Hloop).
    unfold bind, get_model, put_model. by rewrite Hself, Hm.
  - eapply attrs_preserved_trans;
      [apply (attrs_preserved_models vm s (<[vm := mv0]> (model_heap s)))|].
    eapply attrs_preserved_trans; [exact Hpres|].
    apply attrs_preserved_models.
Qed.

Lemma no_KeyError_variational_model self : no_KeyError (variational_model self).
Proof.
  apply no_KeyError_bind; [apply no_KeyError_get_model|]. intros m.
  destruct (JointModel._explicit_variational_model m);
    [apply no_KeyError_ret|].
  apply no_KeyError_bind; [by intros s s'|]. intros vm.
  apply no_KeyError_bind; [apply no_KeyError_get_model|]. intros m'.
  apply no_KeyError_bind.
  { apply no_KeyError_for_each. intros [v q]. apply no_KeyError_extend. }
  intros _. apply no_KeyError_bind; [apply no_KeyError_get_model|].
  intros m''. apply no_KeyError_bind; [apply no_KeyError_put_model|].
  intros _. apply no_KeyError_ret.
Qed.

(** Whatever [variational_model] does, it leaves the component list and
    the marginalization map of the model it is called on alone. *)
Lemma variational_model_Ok_inv self s vm s1 :
  variational_model self s = Ok vm s1 →
  ∃ m m1, model_heap s !! self = Some m ∧ model_heap s1 !! self = Some m1 ∧
          JointModel._components m1 = JointModel._components m ∧
          JointModel._explicit_marginalizations m1 =
            JointModel._explicit_marginalizations m.
Proof.
  unfold variational_model. intros (m & s0 & Hm & Hrest)%bind_Ok_inv.
  unfold get_model in Hm.
  destruct (model_heap s !! self) as [m0|] eqn:Hself; [|done].
  injection Hm as -> ->.
  destruct (JointModel._explicit_variational_model m) as [vm'|].
  - injection Hrest as -> ->. by exists m, m.
  - apply bind_Ok_inv in Hrest as (vmj & sa & Hinit & Hrest).
    apply init_model in Hinit as (name' & _ & Hfresh & _ & Hothers).
    assert (self ≠ vmj) as Hne by congruence.
    apply bind_Ok_inv in Hrest as (ma & sb & Hma & Hrest).
    apply read_only_Ok in Hma as Hsb; [subst sb|apply read_only_get_model].
    apply bind_Ok_inv in Hrest as (u & sc & Hloop & Hrest). destruct u.
    pose proof (build_loop_frame _ _ _ _ Hloop self Hne) as Hframe.
    rewrite (Hothers self Hne), Hself in Hframe.
    revert Hrest. unfold bind, get_model, put_model. rewrite Hframe.
    intros [= <- <-]. exists m, (JointModel.set_explicit_variational_model
                                   (Some vmj) m).
    split; [done|]. split; [apply lookup_insert_eq|]. done.
Qed.

End variational_model_facts.

Section elbo_facts.
Context `{Collaborators}.
Implicit Types (s : State) (m : JointModel.t) (c : Component.t).

Lemma component_closed_allocated s d : component_closed s d → allocated s d.
Proof. intros (c & Hc & _). by exists c. Qed.

(** The first three statements of [_logp]. *)
Lemma logp_prefix self s m :
  model_heap s !! self = Some m →
  variational_model_ready s m →
  ∃ vm s1 mv r m1,
    variational_model self s = Ok vm s1 ∧
    model_heap s1 !! vm = Some mv ∧
    _sample vm ∅ s1 = Ok r s1 ∧
    _entropy_lower_bound vm s1 =
      Ok (tf_sum (component_entropy s1 <$> JointModel._components mv)) s1 ∧
    model_heap s1 !! self = Some m1 ∧
    JointModel._components m1 = JointModel._components m ∧
    JointModel._explicit_marginalizations m1 =
      JointModel._explicit_marginalizations m ∧
    attrs_preserved vm s s1.
Proof.
  intros Hm Hready. unfold variational_model_ready in Hready.
  assert (∃ vm s1 mv,
            variational_model self s = Ok vm s1 ∧
            model_heap s1 !! vm = Some mv ∧
            Forall (component_closed s1) (JointModel._components mv) ∧
            attrs_preserved vm s s1) as (vm & s1 & mv & Hvm & Hmv & Hcl & Hpres).
  { destruct (JointModel._explicit_variational_model m) as [vm|] eqn:Hcache.
    - destruct Hready as (mv & Hmv & Hcl). exists vm, s, mv.
      split; [by eapply variational_model_cached|].
      split; [done|]. split; [done|]. apply attrs_preserved_refl.
    - destruct (variational_model_built self s m Hm Hcache)
        as (vm & s1 & mv & Hvm & _ & _ & Hmv & Hcomps & Hpres).
      { eapply Forall_impl; [exact Hready|]. by intros q [_ ?]. }
      exists vm, s1, mv. split; [done|]. split; [done|]. split; [|done].
      rewrite Hcomps,
        (items_Permutation (JointModel._explicit_marginalizations m)).
      eapply Forall_impl; [exact Hready|]. intros q [Hq _].
      by eapply attrs_preserved_closed. }
  destruct (variational_model_Ok_inv _ _ _ _ Hvm)
    as (m0 & m1 & Hm0 & Hm1 & Hc1 & Hq1).
  assert (m0 = m) as -> by congruence.
  destruct (sample_Ok vm ∅ s1 mv Hmv) as [r Hr].
  { eapply Forall_impl; [exact Hcl|]. apply component_closed_allocated. }
  exists vm, s1, mv, r, m1. repeat split; try done.
  by apply entropy_Ok.
Qed.

Lemma logp_unfold self s vm s1 q_sample stochastic_eps_fn q_entropy m1 :
  variational_model self s = Ok vm s1 →
  _sample vm ∅ s1 = Ok (q_sample, stochastic_eps_fn) s1 →
  _entropy_lower_bound vm s1 = Ok q_entropy s1 →
  model_heap s1 !! self = Some m1 →
  _logp self s =
    (component_lps <- for_collect (JointModel._components m1)
                        (_logp_component self) ;;
     ret (tf_add (tf_sum component_lps) q_entropy, stochastic_eps_fn)) s1.
Proof.
  intros Hvm Hr Hent Hm1. unfold _logp.
  rewrite (bind_Ok _ _ _ _ _ Hvm), (bind_Ok _ _ _ _ _ Hr).
  rewrite (bind_Ok _ _ _ _ _ Hent).
  by rewrite (bind_Ok _ _ _ _ _ (topo_sorted_Ok _ _ _ Hm1)).
Qed.

Lemma filter_no_keys (l : list cid) :
  filter (λ node, node ∉ Dict.keys ([] : list (cid * cid))) l = l.
Proof.
  induction l as [|d l IH]; [done|].
  rewrite filter_cons, decide_True; [by rewrite IH|].
  unfold Dict.keys. simpl. apply not_elem_of_nil.
Qed.

End elbo_facts.

Section more_facts.
Context `{Collaborators}.
Implicit Types (s : State) (m : JointModel.t) (c : Component.t).

Lemma do_call_growth self cl s m s' :
  model_heap s !! self = Some m →
  state_after (do_call self cl s) = Some s' →
  ∃ m', model_heap s' !! self = Some m' ∧
        JointModel._components m `prefix_of` JointModel._components m' ∧
        JointModel._explicit_variational_model m' =
          JointModel._explicit_variational_model m ∧
        (reverse_covers m → reverse_covers m').
Proof.
  assert (∀ v q, reverse_covers m → reverse_covers (marginalized v q m))
    as Hcov.
  { intros v q [Hfwd Hbwd]. split; simpl.
    - intros v' q'. destruct (decide (v = v')) as [<-|Hne].
      + rewrite dict_get_set_eq. intros [= <-]. rewrite lookup_insert_eq.
        by eexists.
      + rewrite dict_get_set_ne by done. intros Hq'.
        destruct (decide (q = q')) as [<-|Hq];
          [rewrite lookup_insert_eq; by eexists|].
        rewrite lookup_insert_ne by done. by eapply Hfwd.
    - intros q' v'. rewrite dict_keys_set.
      destruct (decide (q = q')) as [<-|Hq].
      + rewrite lookup_insert_eq. intros [= <-]. by left.
      + rewrite lookup_insert_ne by done. intros Hv'. right. by eapply Hbwd. }
  intros Hm. destruct cl as [d|model_var [q_dist|]|model_var val]; simpl.
  - destruct (comp_heap s !! d) as [c|] eqn:Hc.
    + destruct (Component.model c) as [owner|] eqn:Hown.
      * destruct (decide (owner = self)) as [->|Hne].
        -- rewrite (extend_ok _ _ _ c m) by auto. intros [= <-]; simpl.
           rewrite lookup_insert_eq. eexists; split; [done|]. simpl.
           split; [by apply prefix_app_r|]. done.
        -- rewrite (extend_foreign _ _ _ c owner) by done. intros [= <-].
           exists m. done.
      * rewrite (extend_ok _ _ _ c m) by auto. intros [= <-]; simpl.
        rewrite lookup_insert_eq. eexists; split; [done|]. simpl.
        split; [by apply prefix_app_r|]. done.
    + unfold extend, bind, get_component. by rewrite Hc.
  - rewrite (marginalize_given _ _ _ _ m) by done. intros [= <-]; simpl.
    rewrite lookup_insert_eq. eexists; split; [done|].
    split; [done|]. split; [done|]. apply Hcov.
  - destruct (comp_heap s !! model_var) as [c|] eqn:Hc.
    + rewrite (marginalize_default _ _ _ m c) by done. intros [= <-]; simpl.
      rewrite lookup_insert_eq. eexists; split; [done|].
      split; [done|]. split; [done|]. apply Hcov.
    + unfold marginalize, bind, get_component. by rewrite Hc.
  - destruct (comp_heap s !! model_var) as [c|] eqn:Hc.
    + rewrite (observe_unfold _ _ _ _ m c) by done. intros [= <-]; simpl.
      rewrite lookup_insert_eq. eexists; split; [done|].
      split; [done|]. split; [done|]. apply Hcov.
    + unfold observe, bind, get_component. by rewrite Hc.
Qed.

Lemma run_growth self cs s m s' :
  model_heap s !! self = Some m →
  run self cs s = Some s' →
  ∃ m', model_heap s' !! self = Some m' ∧
        JointModel._components m `prefix_of` JointModel._components m' ∧
        JointModel._explicit_variational_model m' =
          JointModel._explicit_variational_model m ∧
        (reverse_covers m → reverse_covers m').
Proof.
  revert s m. induction cs as [|cl cs IH]; intros s m Hm; cbn [run].
  - intros [= <-]. by exists m.
  - destruct (state_after (do_call self cl s)) as [s1|] eqn:Hcl; [|done].
    intros Hrun.
    destruct (do_call_growth _ _ _ _ _ Hm Hcl) as (m1 & Hm1 & Hp1 & Hc1 & Hr1).
    destruct (IH _ _ Hm1 Hrun) as (m' & Hm' & Hp' & Hc' & Hr').
    exists m'. split; [done|]. split; [by etrans|].
    split; [congruence|auto].
Qed.

(** ** [_sample], entry by entry *)







(** ** [variational_model], when it fails and when it has run *)

Lemma build_loop_foreign vm (l : list (cid * cid)) s mv :
  model_heap s !! vm = Some mv →
  Forall (allocated s) l.*2 →
  Exists (λ q_dist, ∃ c (owner : mid), comp_heap s !! q_dist = Some c ∧
                      Component.model c = Some owner ∧ owner ≠ vm) l.*2 →
  ∃ s', for_each l (λ '(vname, qdist), extend vm qdist) s
          = Raise AssertionError s' ∧
        ∀ other, other ≠ vm → model_heap s' !! other = model_heap s !! other.
Proof.
  revert s mv. induction l as [|[v q] l IH]; intros s mv Hmv Hall Hex; simpl in *.
  { by apply Exists_nil in Hex. }
  apply Forall_cons in Hall as [[c Hc] Hall].
  destruct (Component.model c) as [owner|] eqn:Hown.
  - destruct (decide (owner = vm)) as [->|Hne].
    + apply Exists_cons in Hex as [(c' & o & Hc' & Ho & Hne)|Hex];
        [congruence|].
      rewrite (bind_Ok _ _ _ _ _ (extend_ok vm q s c mv Hc Hmv (or_intror Hown))).
      edestruct (IH (mkState (<[q := Component.set_model (Some vm) c]> (comp_heap s))
                       (<[vm := extended q c mv]> (model_heap s))))
        as (s' & Hloop & Hframe).
      { simpl. apply lookup_insert_eq. }
      { eapply Forall_impl; [exact Hall|]. intros q' [c' Hc']. unfold allocated.
        simpl. destruct (decide (q = q')) as [<-|Hq];
          [rewrite lookup_insert_eq|rewrite lookup_insert_ne by done]; eauto. }
      { eapply Exists_impl; [exact Hex|]. intros q' (c' & o & Hc' & Ho & Hne).
        simpl. destruct (decide (q = q')) as [<-|Hq]; [congruence|].
        rewrite lookup_insert_ne by done. eauto. }
      exists s'. split; [done|]. intros other Hother.
      rewrite (Hframe other Hother). simpl. by rewrite lookup_insert_ne.
    + exists s. unfold bind.
      by rewrite (extend_foreign _ _ _ c owner).
  - apply Exists_cons in Hex as [(c' & o & Hc' & Ho & Hne)|Hex];
      [congruence|].
    rewrite (bind_Ok _ _ _ _ _ (extend_ok vm q s c mv Hc Hmv (or_introl Hown))).
    edestruct (IH (mkState (<[q := Component.set_model (Some vm) c]> (comp_heap s))
                     (<[vm := extended q c mv]> (model_heap s))))
      as (s' & Hloop & Hframe).
    { simpl. apply lookup_insert_eq. }
    { eapply Forall_impl; [exact Hall|]. intros q' [c' Hc']. unfold allocated.
      simpl. destruct (decide (q = q')) as [<-|Hq];
        [rewrite lookup_insert_eq|rewrite lookup_insert_ne by done]; eauto. }
    { eapply Exists_impl; [exact Hex|]. intros q' (c' & o & Hc' & Ho & Hne).
      simpl. destruct (decide (q = q')) as [<-|Hq]; [congruence|].
      rewrite lookup_insert_ne by done. eauto. }
    exists s'. split; [done|]. intros other Hother.
    rewrite (Hframe other Hother). simpl. by rewrite lookup_insert_ne.
Qed.

Lemma variational_model_Ok_cache self s vm s1 :
  variational_model self s = Ok vm s1 →
  ∃ m m1, model_heap s !! self = Some m ∧ model_heap s1 !! self = Some m1 ∧
          JointModel._explicit_variational_model m1 = Some vm ∧
          JointModel._components m1 = JointModel._components m ∧
          JointModel._explicit_marginalizations m1 =
            JointModel._explicit_marginalizations m.
Proof.
  unfold variational_model. intros (m & s0 & Hm & Hrest)%bind_Ok_inv.
  unfold get_model in Hm.
  destruct (model_heap s !! self) as [m0|] eqn:Hself; [|done].
  injection Hm as -> ->.
  destruct (JointModel._explicit_variational_model m) as [vm'|] eqn:Hcache.
  - injection Hrest as -> ->. by exists m, m.
  - apply bind_Ok_inv in Hrest as (vmj & sa & Hinit & Hrest).
    apply init_model in Hinit as (name' & _ & Hfresh & _ & Hothers).
    assert (self ≠ vmj) as Hne by congruence.
    apply bind_Ok_inv in Hrest as (ma & sb & Hma & Hrest).
    apply read_only_Ok in Hma as Hsb; [subst sb|apply read_only_get_model].
    apply bind_Ok_inv in Hrest as (u & sc & Hloop & Hrest). destruct u.
    pose proof (build_loop_frame _ _ _ _ Hloop self Hne) as Hframe.
    rewrite (Hothers self Hne), Hself in Hframe.
    revert Hrest. unfold bind, get_model, put_model. rewrite Hframe.
    intros [= <- <-]. exists m, (JointModel.set_explicit_variational_model
                                   (Some vmj) m).
    split; [done|]. split; [apply lookup_insert_eq|]. done.
Qed.

Lemma logp_final_state self s vm s1 :
  variational_model self s = Ok vm s1 →
  match _logp self s with
  | Ok _ s' | Raise _ s' => s' = s1
  | Stuck => True
  end.
Proof.
  intros Hvm. unfold _logp. rewrite (bind_Ok _ _ _ _ _ Hvm).
  match goal with
  | |- match ?c s1 with _ => _ end => assert (read_only c) as Hro
  end.
  { apply read_only_bind; [apply read_only_sample|]. intros [q e].
    apply read_only_bind; [apply read_only_entropy|]. intros ent.
    apply read_only_bind; [apply read_only_topo_sorted|]. intros l.
    apply read_only_bind; [|intros lps; apply read_only_ret].
    apply read_only_for_collect. intros d. apply read_only_logp_component. }
  apply Hro.
Qed.

(** ** [_match_variational_names] *)

Lemma match_names_fold self (l : list (cid * string * Tensor)) s m
    (acc : gmap cid Tensor * list string) :
  model_heap s !! self = Some m →
  for_fold l
    (λ '(renamed_sample, printed) '((vnode, vname), val),
       found <- try_except_KeyError
                  (m <- get_model self ;;
                   mkey <- getitem
                     (JointModel._explicit_marginalizations_reverse m !! vnode) ;;
                   ret (Some mkey))
                  (ret None) ;;
       match found with
       | None => ret (renamed_sample, printed)
       | Some mkey =>
           ret (<[mkey := val]> renamed_sample, printed ++ [warning vname])
       end) acc s =
  Ok (foldl (rename_step (JointModel._explicit_marginalizations_reverse m))
        acc l) s.
Proof.
  intros Hm. revert acc.
  induction l as [|[[vnode vname] val] l IH]; intros [renamed printed];
    [done|].
  cbn [for_fold foldl]. erewrite bind_Ok; [apply IH|].
  unfold rename_step, try_except_KeyError, bind, get_model. rewrite Hm.
  simpl.
  by destruct (JointModel._explicit_marginalizations_reverse m !! vnode).
Qed.

Lemma rename_fold_sound (reverse : gmap cid cid) l acc (v : cid) (val : Tensor) :
  (foldl (rename_step reverse) acc l).1 !! v = Some val →
  acc.1 !! v = Some val ∨
  ∃ vnode vname, (vnode, vname, val) ∈ l ∧ reverse !! vnode = Some v.
Proof.
  revert acc. induction l as [|[[vnode vname] t] l IH]; intros acc; simpl;
    [by left|].
  intros [Hacc|(vnode' & vname' & Hin & Hrev)]%IH.
  - unfold rename_step in Hacc. simpl in Hacc.
    destruct (reverse !! vnode) as [mkey|] eqn:Hrev; [|by left].
    simpl in Hacc. destruct (decide (mkey = v)) as [->|Hne].
    + rewrite lookup_insert_eq in Hacc. injection Hacc as ->.
      right. exists vnode, vname. rewrite elem_of_cons. auto.
    + rewrite lookup_insert_ne in Hacc by done. by left.
  - right. exists vnode', vname'. rewrite elem_of_cons. auto.
Qed.

Lemma rename_fold_last (reverse : gmap cid cid) l acc vnode vname
    (val : Tensor) (v : cid) :
  (vnode, vname, val) ∈ l → reverse !! vnode = Some v →
  (∀ vnode' vname' val', (vnode', vname', val') ∈ l →
                         reverse !! vnode' = Some v → val' = val) →
  (foldl (rename_step reverse) acc l).1 !! v = Some val.
Proof.
  induction l as [|[[xn xv] xt] l IH] using rev_ind;
    [by intros ?%elem_of_nil|].
  intros Hin Hrev Hsame. rewrite foldl_snoc. unfold rename_step at 1. simpl.
  destruct (reverse !! xn) as [mkey|] eqn:Hx; simpl.
  - destruct (decide (mkey = v)) as [->|Hne].
    + rewrite lookup_insert_eq. f_equal. apply (Hsame xn xv); [|done].
      rewrite elem_of_app, list_elem_of_singleton. auto.
    + rewrite lookup_insert_ne by done.
      apply elem_of_app in Hin as [Hin|Heq%list_elem_of_singleton];
        [|congruence].
      apply IH; [done..|]. intros vnode' vname' val' Hin'.
      apply (Hsame vnode' vname'). rewrite elem_of_app. auto.
  - apply elem_of_app in Hin as [Hin|Heq%list_elem_of_singleton];
      [|congruence].
    apply IH; [done..|]. intros vnode' vname' val' Hin'.
    apply (Hsame vnode' vname'). rewrite elem_of_app. auto.
Qed.

Lemma rename_fold_later (reverse : gmap cid cid) l1 l2 acc vnode vname
    (val : Tensor) (v : cid) :
  reverse !! vnode = Some v →
  (∀ vnode' vname' val', (vnode', vname', val') ∈ l2 →
                         reverse !! vnode' = Some v → val' = val) →
  (foldl (rename_step reverse) acc (l1 ++ (vnode, vname, val) :: l2)).1 !! v
    = Some val.
Proof.
  intros Hrev Hsame. rewrite foldl_app.
  apply (rename_fold_last _ _ _ vnode vname); [apply elem_of_cons; by left|done|].
  intros vnode' vname' val' [[= -> -> ->]|Hin]%elem_of_cons Hrev'; [done|].
  by apply (Hsame vnode' vname').
Qed.

Lemma rename_fold_printed (reverse : gmap cid cid)
    (l : list (cid * string * Tensor)) acc :
  (foldl (rename_step reverse) acc l).2 =
  (acc.2 ++ ((λ item, warning item.1.2) <$>
               filter (λ item, is_Some (reverse !! item.1.1)) l))%list.
Proof.
  revert acc. induction l as [|item l IH]; intros acc; simpl.
  - by rewrite app_nil_r.
  - rewrite IH. unfold rename_step.
    destruct (reverse !! item.1.1) as [mkey|] eqn:Hrev; simpl.
    + rewrite filter_cons_True by (simpl; rewrite Hrev; by eexists).
      simpl. by rewrite <-app_assoc.
    + rewrite filter_cons_False; [done|].
      simpl. rewrite Hrev. by intros [? ?].
Qed.

End more_facts.

Section training_facts.
Context `{Runtime}.
Implicit Types (s : State) (w : World).

Lemma tbind_Returned {A B} (c : T A) (k : A → T B) w s a w1 s1 :
  c w s = Returned a w1 s1 → tbind c k w s = k a w1 s1.
Proof. unfold tbind. by intros ->. Qed.

Lemma tbind_Returned_inv {A B} (c : T A) (k : A → T B) w s b w' s' :
  tbind c k w s = Returned b w' s' →
  ∃ a w1 s1, c w s = Returned a w1 s1 ∧ k a w1 s1 = Returned b w' s'.
Proof.
  unfold tbind. destruct (c w s) as [a w1 s1|e w1 s1|]; [|done..].
  intros Hk. by exists a, w1, s1.
Qed.

Lemma lift_Returned_inv {A} (c : M A) w s a w' s' :
  lift c w s = Returned a w' s' → c s = Ok a s' ∧ w' = w.
Proof.
  unfold lift. destruct (c s) as [a1 s1|e s1|]; [|done..].
  by intros [= -> -> ->].
Qed.

Lemma lift_Ok {A} (c : M A) w s a s' :
  c s = Ok a s' → lift c w s = Returned a w s'.
Proof. unfold lift. by intros ->. Qed.

Lemma run_external_Done {A} (f : World → external World A) w s a w' :
  f w = Done a w' → run_external f w s = Returned a w' s.
Proof. unfold run_external. by intros ->. Qed.

(** The loop of [posterior]. *)
Lemma posterior_loop session feed_dict s (l : list cid)
    (acc : gmap string (gmap string Fetched)) w :
  Forall (allocated s) l →
  (∀ node, node ∈ l → ∀ w0, ∃ d w0',
     _optimized_params node session feed_dict s w0 = Done d w0') →
  ∃ r w',
    tfor_fold l (λ posterior_vals node,
      tbind (λ w s, run_external
                      (_optimized_params node session feed_dict s) w s) (λ d,
      if decide (0 < size d) then
        tbind (lift (get_component node)) (λ c,
        tret (<[Component.name c := d]> posterior_vals))
      else tret posterior_vals)) acc w s = Returned r w' s ∧
    ∀ n d, r !! n = Some d →
      acc !! n = Some d ∨
      (d ≠ ∅ ∧ ∃ node c w0 w0',
         node ∈ l ∧ comp_heap s !! node = Some c ∧ Component.name c = n ∧
         _optimized_params node session feed_dict s w0 = Done d w0').
Proof.
  intros Hall. revert acc w.
  induction Hall as [|node l [c Hc] _ IH]; intros acc w Hext.
  - exists acc, w. split; [done|]. by left.
  - destruct (Hext node) with (w0 := w) as (d & w1 & Hd);
      [apply elem_of_cons; by left|].
    cbn [tfor_fold].
    assert (∃ acc1,
      tbind (λ w s, run_external
                      (_optimized_params node session feed_dict s) w s) (λ d,
        if decide (0 < size d) then
          tbind (lift (get_component node)) (λ c,
          tret (<[Component.name c := d]> acc))
        else tret acc) w s = Returned acc1 w1 s ∧
      ∀ n d', acc1 !! n = Some d' →
        acc !! n = Some d' ∨
        (d' ≠ ∅ ∧ Component.name c = n ∧ d' = d)) as (acc1 & Hbody & Hacc1).
    { unfold tbind at 1. rewrite (run_external_Done _ _ _ _ _ Hd).
      destruct (decide (0 < size d)) as [Hpos|Hzero].
      - unfold tbind, lift, get_component. rewrite Hc.
        eexists. split; [done|]. intros n d'.
        destruct (decide (Component.name c = n)) as [<-|Hne].
        + rewrite lookup_insert_eq. intros [= <-]. right.
          split; [|done]. intros ->. rewrite map_size_empty in Hpos. lia.
        + rewrite lookup_insert_ne by done. by left.
      - exists acc. split; [done|]. by left. }
    rewrite (tbind_Returned _ _ _ _ _ _ _ Hbody).
    destruct (IH acc1 w1) as (r & w' & Hloop & Hr).
    { intros node' Hin. apply Hext. apply elem_of_cons. by right. }
    exists r, w'. split; [done|]. intros n d' [Hacc|Hnew]%Hr.
    + apply Hacc1 in Hacc as [Hacc|(Hne & Hn & ->)]; [by left|].
      right. split; [done|]. exists node, c, w, w1.
      split; [apply elem_of_cons; by left|done].
    + right. destruct Hnew as (Hne & node' & c' & w0 & w0' & Hin & Hrest).
      split; [done|]. exists node', c', w0, w0'.
      split; [apply elem_of_cons; by right|done].
Qed.

End training_facts.

(* ===================================================================== *)
(** * The claims                                                          *)
(* ===================================================================== *)

Section claims_on_building.
Context `{Collaborators}.
Implicit Types (s : State) (m : JointModel.t) (c : Component.t).

(** C2, as the code has it.  On a model built from a new JointModel by
    any sequence of extend, marginalize and observe calls, [outputs()]
    returns the members of the component list that were never passed to
    marginalize or observe, in component-list order, and leaves the
    store as it was.  It goes through the component list once, but for
    each element it builds the key list of the marginalization map
    anew and searches it: with [n] components and [k] keys it takes at
    least [n * (1 + k)] and at most [n * (1 + 2 * k)] steps. *)
Theorem outputs_never_marginalized name s0 self s1 cs s :
  __init__ name s0 = Ok self s1 →
  run self cs s1 = Some s →
  ∃ m steps,
    model_heap s !! self = Some m ∧
    outputs self s =
      Ok (filter (λ d, d ∉ passed cs) (JointModel._components m)) s ∧
    outputs_steps self s = Ok steps s ∧
    length (JointModel._components m) *
      (1 + length (Dict.keys (JointModel._explicit_marginalizations m)))
      ≤ steps ∧
    steps ≤
      length (JointModel._components m) *
        (1 + 2 * length (Dict.keys (JointModel._explicit_marginalizations m))).
Proof.
  intros Hinit Hrun.
  destruct (init_model _ _ _ _ Hinit) as (name' & Hm1 & _).
  destruct (run_self _ _ _ _ _ Hm1 Hrun) as (m & Hm & _ & Hkeys).
  exists m, (non_marginalized (JointModel._components m)
               (JointModel._explicit_marginalizations m)).2.
  split; [done|]. split; [|split].
  - unfold outputs, bind, get_model, ret. rewrite Hm. f_equal.
    rewrite non_marginalized_filter. apply list_filter_iff.
    intros d. rewrite Hkeys. simpl. rewrite elem_of_nil. tauto.
  - unfold outputs_steps, bind, get_model, ret. by rewrite Hm.
  - apply non_marginalized_steps.
Qed.

(** C4, as the code has it.  [marginalize(v, q)] never fails, whether or
    not [v] is a component of the model or is already marginalized: it
    records [q] as the marginalization of [v], replacing an earlier one,
    leaves the other entries alone and adds [q ↦ v] to the reverse
    map. *)
Theorem marginalize_overwrites self model_var q_dist s m :
  model_heap s !! self = Some m →
  ∃ s' m',
    marginalize self model_var (Some q_dist) s = Ok tt s' ∧
    model_heap s' !! self = Some m' ∧
    Dict.get model_var (JointModel._explicit_marginalizations m') =
      Some q_dist ∧
    (∀ v, v ≠ model_var →
          Dict.get v (JointModel._explicit_marginalizations m') =
          Dict.get v (JointModel._explicit_marginalizations m)) ∧
    JointModel._explicit_marginalizations_reverse m' =
      <[q_dist := model_var]> (JointModel._explicit_marginalizations_reverse m).
Proof.
  intros Hm. eexists _, _. split; [by apply marginalize_given|]. simpl.
  split; [apply lookup_insert_eq|]. simpl.
  split; [apply dict_get_set_eq|]. split; [|done].
  intros v Hne. by apply dict_get_set_ne.
Qed.

(** C9. [marginalize] changes two fields of the model it is called on,
    the marginalization map and its reverse: the component list, the
    name lookup, both free-input maps, the name and the cached
    variational model reference stay; every other model object (a cached
    variational model among them) and every existing component object is
    left as it was. *)
Theorem marginalize_frame self model_var q_dist s m :
  model_heap s !! self = Some m →
  (q_dist = None → allocated s model_var) →
  ∃ s' m',
    marginalize self model_var q_dist s = Ok tt s' ∧
    model_heap s' !! self = Some m' ∧
    JointModel._components m' = JointModel._components m ∧
    JointModel._components_by_key m' = JointModel._components_by_key m ∧
    JointModel.inputs_random m' = JointModel.inputs_random m ∧
    JointModel.inputs_nonrandom m' = JointModel.inputs_nonrandom m ∧
    JointModel.name m' = JointModel.name m ∧
    JointModel._explicit_variational_model m' =
      JointModel._explicit_variational_model m ∧
    (∀ other, other ≠ self → model_heap s' !! other = model_heap s !! other) ∧
    (∀ d c, comp_heap s !! d = Some c → comp_heap s' !! d = Some c).
Proof.
  intros Hm Hv. destruct q_dist as [q_dist|].
  - eexists _, _. split; [by apply marginalize_given|]. simpl.
    split; [apply lookup_insert_eq|]. simpl. repeat split; try done.
    intros other Hne. by rewrite lookup_insert_ne.
  - destruct Hv as [v Hv]; [done|].
    eexists _, _. split; [by eapply marginalize_default|]. simpl.
    split; [apply lookup_insert_eq|]. simpl. repeat split; try done.
    + intros other Hne. by rewrite lookup_insert_ne.
    + intros d c Hd. rewrite lookup_insert_ne; [done|].
      intros <-. apply (is_fresh (dom (comp_heap s))).
      apply elem_of_dom. by eexists.
Qed.

(** C5, as the code has it.  When [d] is already attached to [m],
    [m.extend(d)] passes the ownership assertion and runs as for a new
    component: [d] is appended to the component list once more.  The
    name lookup, the other models and all component objects are left as
    they were; the free-input map gets [(d, param) ↦ node] for every
    random input of [d] supplied from outside the component list, and
    is unchanged when those entries were already there. *)
Theorem extend_attached_appends self d s c m :
  comp_heap s !! d = Some c →
  model_heap s !! self = Some m →
  Component.model c = Some self →
  d ∈ JointModel._components m →
  ∃ s' m',
    extend self d s = Ok tt s' ∧
    model_heap s' !! self = Some m' ∧
    JointModel._components m' = (JointModel._components m ++ [d])%list ∧
    JointModel._components_by_key m' = JointModel._components_by_key m ∧
    (∀ d' param,
       JointModel.inputs_random m' !! (d', param) =
       match Component.inputs_random c !! param with
       | Some node =>
           if decide (d' = d ∧ node ∉ JointModel._components m) then Some node
           else JointModel.inputs_random m !! (d', param)
       | None => JointModel.inputs_random m !! (d', param)
       end) ∧
    ((∀ param node, Component.inputs_random c !! param = Some node →
                    node ∉ JointModel._components m →
                    JointModel.inputs_random m !! (d, param) = Some node) →
     JointModel.inputs_random m' = JointModel.inputs_random m) ∧
    comp_heap s' = comp_heap s ∧
    (∀ other, other ≠ self → model_heap s' !! other = model_heap s !! other).
Proof.
  intros Hc Hm Hown Hin. eexists _, _.
  split; [apply (extend_ok _ _ _ c m); auto|]. simpl.
  split; [apply lookup_insert_eq|].
  split; [done|]. split; [done|].
  split; [apply extended_inputs_random|].
  split; [|split].
  - intros Hrec. apply map_eq. intros [d' param].
    rewrite (extended_inputs_random d c m d' param).
    destruct (Component.inputs_random c !! param) as [node|] eqn:Hp; [|done].
    destruct (decide (d' = d ∧ node ∉ JointModel._components m))
      as [[-> Hout]|]; [|done].
    symmetry. by apply Hrec.
  - apply insert_id. rewrite Hc. f_equal. destruct c; simpl in *. by subst.
  - intros other Hne. by rewrite lookup_insert_ne.
Qed.

(** C6, as the code has it.  [extend] appends to the component list and
    never writes the name lookup: on a model built from a new JointModel
    by any sequence of extend, marginalize and observe calls,
    [_components_by_key] is empty, and a further [extend] accepts every
    component that is unowned or owned by this model, whatever its name,
    again leaving the lookup empty. *)
Theorem name_lookup_stays_empty name s0 self s1 cs s :
  __init__ name s0 = Ok self s1 →
  run self cs s1 = Some s →
  ∃ m, model_heap s !! self = Some m ∧
       JointModel._components_by_key m = ∅ ∧
       ∀ d c, comp_heap s !! d = Some c →
              Component.model c = None ∨ Component.model c = Some self →
              ∃ s' m',
                extend self d s = Ok tt s' ∧
                model_heap s' !! self = Some m' ∧
                JointModel._components m' =
                  (JointModel._components m ++ [d])%list ∧
                JointModel._components_by_key m' = ∅.
Proof.
  intros Hinit Hrun.
  destruct (init_model _ _ _ _ Hinit) as (name' & Hm1 & _).
  destruct (run_self _ _ _ _ _ Hm1 Hrun) as (m & Hm & Hkey & _).
  exists m. split; [done|]. split; [done|].
  intros d c Hc Hown. eexists _, _.
  split; [by apply (extend_ok _ _ _ c m)|]. simpl.
  split; [apply lookup_insert_eq|]. done.
Qed.

End claims_on_building.

Section claims_on_inference.
Context `{Collaborators}.
Implicit Types (s : State) (m : JointModel.t) (c : Component.t).

(** C3, as the code has it.  Without a cached instance, and when every
    registered variational component is unowned, [variational_model()]
    creates a new JointModel whose components are the values of the
    marginalization map in the order the dictionary yields its items,
    stores it, and returns it again on the next call.  With a cached
    instance it returns that instance and leaves the store alone; a
    later [marginalize] neither replaces nor extends the cached
    instance, which the next call returns as it was. *)
Theorem variational_model_memoized self s m :
  model_heap s !! self = Some m →
  (JointModel._explicit_variational_model m = None →
   Forall (λ q_dist, ∃ c, comp_heap s !! q_dist = Some c ∧
                          Component.model c = None)
          (Dict.values (JointModel._explicit_marginalizations m)) →
   ∃ vm s1 mv,
     variational_model self s = Ok vm s1 ∧
     model_heap s !! vm = None ∧
     model_heap s1 !! vm = Some mv ∧
     JointModel._components mv =
       (items (JointModel._explicit_marginalizations m)).*2 ∧
     variational_model self s1 = Ok vm s1) ∧
  (∀ vm, JointModel._explicit_variational_model m = Some vm →
     variational_model self s = Ok vm s ∧
     ∀ model_var q_dist,
       (q_dist = None → allocated s model_var) →
       ∃ s2, marginalize self model_var q_dist s = Ok tt s2 ∧
             variational_model self s2 = Ok vm s2 ∧
             (vm ≠ self → model_heap s2 !! vm = model_heap s !! vm)).
Proof.
  intros Hm. split.
  - intros Hcache Hall.
    destruct (variational_model_built self s m Hm Hcache Hall)
      as (vm & s1 & mv & Hvm & Hfresh & Hself & Hmv & Hcomps & _).
    exists vm, s1, mv. repeat split; try done.
    by eapply variational_model_cached.
  - intros vm Hcache. split; [by eapply variational_model_cached|].
    intros model_var q_dist Hv. destruct q_dist as [q_dist|].
    + eexists. split; [by apply marginalize_given|]. split.
      * eapply variational_model_cached; [simpl; apply lookup_insert_eq|done].
      * intros Hne. simpl. by rewrite lookup_insert_ne.
    + destruct Hv as [v Hv]; [done|].
      eexists. split; [by eapply marginalize_default|]. split.
      * eapply variational_model_cached; [simpl; apply lookup_insert_eq|done].
      * intros Hne. simpl. by rewrite lookup_insert_ne.
Qed.

(** C7, as the code has it.  [_entropy_lower_bound] of a model returns
    the [tf.reduce_sum] over the packed list, in component order, of
    each component's parameterized entropy lower bound at the sampled
    values of its random inputs.  For a model that marginalizes [A] by
    [qA] and [B] by [qB] and nothing else, the entropy lower bound of
    its variational model is that sum over the two terms of [qA] and
    [qB] when the variational model is built after both
    marginalizations (none is cached yet) and [qA] and [qB] are
    unowned. *)
Theorem entropy_lower_bound_sums self s m :
  model_heap s !! self = Some m →
  Forall (component_closed s) (JointModel._components m) →
  _entropy_lower_bound self s =
    Ok (tf_sum (component_entropy s <$> JointModel._components m)) s ∧
  (∀ parent s0 m0 A B qA qB,
     model_heap s0 !! parent = Some m0 →
     JointModel._explicit_marginalizations m0 = [(A, qA); (B, qB)] →
     JointModel._explicit_variational_model m0 = None →
     Forall (λ q_dist, component_closed s0 q_dist ∧
                       ∃ c, comp_heap s0 !! q_dist = Some c ∧
                            Component.model c = None) [qA; qB] →
     ∃ vm s1 l,
       variational_model parent s0 = Ok vm s1 ∧
       l ≡ₚ [qA; qB] ∧
       _entropy_lower_bound vm s1 =
         Ok (tf_sum (component_entropy s1 <$> l)) s1).
Proof.
  intros Hm Hcl. split; [by apply entropy_Ok|].
  intros parent s0 m0 A B qA qB Hm0 Hmarg Hcache Hqs.
  destruct (variational_model_built parent s0 m0 Hm0 Hcache)
    as (vm & s1 & mv & Hvm & _ & _ & Hmv & Hcomps & Hpres).
  { rewrite Hmarg. simpl.
    eapply Forall_impl; [exact Hqs|]. by intros q [_ ?]. }
  exists vm, s1, (JointModel._components mv).
  split; [done|]. split.
  - rewrite Hcomps, (items_Permutation _), Hmarg. done.
  - apply entropy_Ok; [done|].
    rewrite Hcomps, (items_Permutation _), Hmarg. simpl.
    eapply Forall_impl; [exact Hqs|]. intros q [Hq _].
    by eapply attrs_preserved_closed.
Qed.

(** C1, as the code has it.  On a model whose components all have a
    marginalization and whose variational model exists or can be built
    (see [variational_model_ready]), [_logp] returns a pair: the first
    element is [tf.reduce_sum] over the packed list, in component
    order, of each component's expected log probability under its
    collected variational components, plus the entropy lower bound of
    the variational model; the second is the deferred base-randomness
    function that sampling the variational model produced. *)
Theorem logp_assembles_elbo self s m :
  model_heap s !! self = Some m →
  Forall (allocated s) (JointModel._components m) →
  Forall (λ d, is_Some (Dict.get d (JointModel._explicit_marginalizations m)))
         (JointModel._components m) →
  variational_model_ready s m →
  ∃ vm s1 q_sample stochastic_eps_fn q_entropy,
    variational_model self s = Ok vm s1 ∧
    _sample vm ∅ s1 = Ok (q_sample, stochastic_eps_fn) s1 ∧
    _entropy_lower_bound vm s1 = Ok q_entropy s1 ∧
    _logp self s =
      Ok (tf_add
            (tf_sum (component_expected_logp
                       (JointModel._explicit_marginalizations m) s1
                     <$> JointModel._components m))
            q_entropy,
          stochastic_eps_fn) s1.
Proof.
  intros Hm Halloc Hmarg Hready.
  destruct (logp_prefix self s m Hm Hready)
    as (vm & s1 & mv & [q_sample eps] & m1 & Hvm & Hmv & Hr & Hent & Hm1 &
        Hc1 & Hq1 & Hpres).
  exists vm, s1, q_sample, eps. eexists.
  split; [done|]. split; [done|]. split; [done|].
  rewrite (logp_unfold _ _ _ _ _ _ _ _ Hvm Hr Hent Hm1), Hc1.
  erewrite bind_Ok; [reflexivity|]. rewrite <-Hq1.
  apply for_collect_Ok. apply Forall_forall. intros d Hd.
  rewrite Forall_forall in Halloc, Hmarg.
  destruct (attrs_preserved_allocated vm s s1 d Hpres (Halloc d Hd)) as [c Hc].
  destruct (Hmarg d Hd) as [q Hq]. rewrite <-Hq1 in Hq.
  by eapply logp_component_Ok.
Qed.

(** C8. On a non-empty model with no marginalization (whose cached
    variational model, if there is one, is a live model with closed
    components), [_logp] raises KeyError, while [_sample] and
    [outputs()] return, before that failure and after it; [outputs()]
    returns the whole component list. *)
Theorem logp_without_marginalizations self s m :
  model_heap s !! self = Some m →
  JointModel._components m ≠ [] →
  JointModel._explicit_marginalizations m = [] →
  Forall (allocated s) (JointModel._components m) →
  (∀ vm, JointModel._explicit_variational_model m = Some vm →
         ∃ mv, model_heap s !! vm = Some mv ∧
               Forall (component_closed s) (JointModel._components mv)) →
  ∃ s',
    _logp self s = Raise KeyError s' ∧
    (∀ input_vals, (∃ r, _sample self input_vals s = Ok r s) ∧
                   (∃ r, _sample self input_vals s' = Ok r s')) ∧
    outputs self s = Ok (JointModel._components m) s ∧
    outputs self s' = Ok (JointModel._components m) s'.
Proof.
  intros Hm Hne Hmarg Halloc Hcached.
  assert (variational_model_ready s m) as Hready.
  { unfold variational_model_ready.
    destruct (JointModel._explicit_variational_model m) as [vm|];
      [by apply Hcached|].
    rewrite Hmarg. apply List.Forall_nil. }
  destruct (logp_prefix self s m Hm Hready)
    as (vm & s1 & mv & [q_sample eps] & m1 & Hvm & Hmv & Hr & Hent & Hm1 &
        Hc1 & Hq1 & Hpres).
  assert (Forall (allocated s1) (JointModel._components m1)) as Halloc1.
  { rewrite Hc1. eapply Forall_impl; [exact Halloc|].
    intros d. by apply (attrs_preserved_allocated vm). }
  exists s1. split; [|split; [|split]].
  - rewrite (logp_unfold _ _ _ _ _ _ _ _ Hvm Hr Hent Hm1).
    assert (Forall (λ d, _logp_component self d s1 = Raise KeyError s1)
                   (JointModel._components m1)) as Hraise.
    { eapply Forall_impl; [exact Halloc1|]. intros d [c Hc].
      eapply logp_component_KeyError; [done..|]. by rewrite Hq1, Hmarg. }
    unfold bind. rewrite (for_collect_Raise _ _ _ KeyError); [done| |].
    + eapply Forall_impl; [exact Hraise|]. by right.
    + rewrite Hc1 in *. destruct (JointModel._components m); [done|].
      apply Exists_cons_hd. by apply Forall_cons in Hraise as [? _].
  - intros input_vals. split; by eapply sample_Ok.
  - rewrite (outputs_Ok _ _ _ Hm), Hmarg. by rewrite filter_no_keys.
  - rewrite (outputs_Ok _ _ _ Hm1), Hq1, Hmarg, Hc1. by rewrite filter_no_keys.
Qed.

(** C10. The loop of [_logp] that collects the variational components
    of the inputs of a component never raises: it returns a dictionary
    with an entry ["q_" + param] exactly for the parameters whose
    supplier is found among the random inputs and again in the
    marginalization map; the others add nothing.  A KeyError that
    escapes [_logp] comes from a component of the model that has no
    marginalization of its own. *)
Theorem logp_skips_failed_input_lookups self s m c :
  model_heap s !! self = Some m →
  collect_component_qs self c s =
    Ok (collected_qs (JointModel._explicit_marginalizations m) c) s ∧
  (∀ k q_dist,
     collected_qs (JointModel._explicit_marginalizations m) c !! k
       = Some q_dist ↔
     ∃ param node,
       param ∈ Component.inputs_keys c ∧ k = "q_" +:+ param ∧
       Component.inputs_random c !! param = Some node ∧
       Dict.get node (JointModel._explicit_marginalizations m) = Some q_dist) ∧
  (∀ s', _logp self s = Raise KeyError s' →
         ∃ d, d ∈ JointModel._components m ∧
              Dict.get d (JointModel._explicit_marginalizations m) = None).
Proof.
  intros Hm. split; [by apply collect_component_qs_Ok|]. split.
  - intros k q_dist. rewrite collected_qs_lookup.
    unfold input_marginalization. split.
    + intros (param & Hin & -> & Hq).
      destruct (Component.inputs_random c !! param) as [node|] eqn:Hp; [|done].
      by exists param, node.
    + intros (param & node & Hin & -> & Hp & Hq).
      exists param. by rewrite Hp.
  - intros s' Hraise. unfold _logp in Hraise.
    apply bind_Raise_inv in Hraise as [Hr|(vm & s1 & Hvm & Hraise)];
      [by apply no_KeyError_variational_model in Hr|].
    destruct (variational_model_Ok_inv _ _ _ _ Hvm)
      as (m0 & m1 & Hm0 & Hm1 & Hc1 & Hq1).
    assert (m0 = m) as -> by congruence.
    apply bind_Raise_inv in Hraise as [Hr|([q_sample eps] & s2 & Hr & Hraise)];
      [by apply no_KeyError_sample in Hr|].
    apply read_only_Ok in Hr as ->; [|apply read_only_sample].
    apply bind_Raise_inv in Hraise as [Hr|(q_entropy & s2 & Hent & Hraise)];
      [by apply no_KeyError_entropy in Hr|].
    apply read_only_Ok in Hent as ->; [|apply read_only_entropy].
    rewrite (bind_Ok _ _ _ _ _ (topo_sorted_Ok _ _ _ Hm1)) in Hraise.
    apply bind_Raise_inv in Hraise as [Hr|(lps & s2 & _ & Hr)]; [|done].
    apply for_collect_Raise_inv in Hr as (d & Hd & Hr);
      [|apply read_only_logp_component].
    exists d. rewrite <-Hc1, <-Hq1. split; [done|].
    by eapply logp_component_KeyError_inv.
Qed.

End claims_on_inference.

(* ===================================================================== *)
(** * Further properties of the code                                      *)
(* ===================================================================== *)

Section more_on_building.
Context `{Collaborators}.
Implicit Types (s : State) (m : JointModel.t) (c : Component.t).

(** X1. Ownership is exclusive: once [extend] has put a component into
    one model, extending any other model by it raises AssertionError
    and changes nothing. *)
Theorem extend_is_exclusive self other d s s' :
  extend self d s = Ok tt s' →
  other ≠ self →
  extend other d s' = Raise AssertionError s'.
Proof.
  intros (c & m & Hc & Hm & Hown & ->)%extend_Ok_inv Hne.
  eapply (extend_foreign _ _ _ (Component.set_model (Some self) c) self);
    [simpl; apply lookup_insert_eq|done|done].
Qed.

(** X2. Extending by an unowned component makes the model its owner
    (no other attribute of the component changes), appends it to the
    component list, and records as free inputs of the model exactly
    those random inputs of the component whose supplier is not yet in
    the component list; inputs supplied by members are recorded
    nowhere.  The marginalization maps and the cached variational model
    are untouched. *)
Theorem extend_new_component self d s c m :
  comp_heap s !! d = Some c →
  Component.model c = None →
  model_heap s !! self = Some m →
  ∃ s' c' m',
    extend self d s = Ok tt s' ∧
    comp_heap s' !! d = Some c' ∧
    Component.model c' = Some self ∧ Component.same_attrs c c' ∧
    (∀ d', d' ≠ d → comp_heap s' !! d' = comp_heap s !! d') ∧
    model_heap s' !! self = Some m' ∧
    JointModel._components m' = (JointModel._components m ++ [d])%list ∧
    (∀ d' param,
       JointModel.inputs_random m' !! (d', param) =
       match Component.inputs_random c !! param with
       | Some node =>
           if decide (d' = d ∧ node ∉ JointModel._components m) then Some node
           else JointModel.inputs_random m !! (d', param)
       | None => JointModel.inputs_random m !! (d', param)
       end) ∧
    JointModel._explicit_marginalizations m' =
      JointModel._explicit_marginalizations m ∧
    JointModel._explicit_marginalizations_reverse m' =
      JointModel._explicit_marginalizations_reverse m ∧
    JointModel._explicit_variational_model m' =
      JointModel._explicit_variational_model m ∧
    (∀ other, other ≠ self → model_heap s' !! other = model_heap s !! other).
Proof.
  intros Hc Hown Hm. eexists _, _, _.
  split; [apply (extend_ok _ _ _ c m); auto|]. simpl.
  split; [apply lookup_insert_eq|]. split; [done|].
  split; [by repeat split|].
  split; [intros d' Hne; by rewrite lookup_insert_ne|].
  split; [apply lookup_insert_eq|]. split; [done|].
  split; [apply extended_inputs_random|].
  repeat split; try done.
  intros other Hne. by rewrite lookup_insert_ne.
Qed.

(** X3. Whatever sequence of extend, marginalize and observe calls is
    applied to a model, its component list only grows at the end
    (members keep their positions), no variable leaves the
    marginalization map, and the cached variational model reference is
    not touched. *)
Theorem building_is_monotone self cs s m s' :
  model_heap s !! self = Some m →
  run self cs s = Some s' →
  ∃ m', model_heap s' !! self = Some m' ∧
        JointModel._components m `prefix_of` JointModel._components m' ∧
        (∀ v, v ∈ Dict.keys (JointModel._explicit_marginalizations m) →
              v ∈ Dict.keys (JointModel._explicit_marginalizations m')) ∧
        JointModel._explicit_variational_model m' =
          JointModel._explicit_variational_model m.
Proof.
  intros Hm Hrun.
  destruct (run_growth _ _ _ _ _ Hm Hrun) as (m' & Hm' & Hpre & Hcache & _).
  destruct (run_self _ _ _ _ _ Hm Hrun) as (m'' & Hm'' & _ & Hkeys).
  assert (m'' = m') as -> by congruence.
  exists m'. split; [done|]. split; [done|]. split; [|done].
  intros v Hv. apply Hkeys. by right.
Qed.

(** X4. [marginalize(v, q)] removes [v], and nothing else, from the
    outputs: variables that depend on [v] stay outputs.  When [v] was
    no output, the outputs are as before. *)
Theorem outputs_after_marginalize self model_var q_dist s m :
  model_heap s !! self = Some m →
  (q_dist = None → allocated s model_var) →
  ∃ s' out,
    marginalize self model_var q_dist s = Ok tt s' ∧
    outputs self s = Ok out s ∧
    outputs self s' = Ok (filter (λ d, d ≠ model_var) out) s'.
Proof.
  intros Hm Hv.
  assert (∃ s' q, marginalize self model_var q_dist s = Ok tt s' ∧
                  model_heap s' !! self = Some (marginalized model_var q m))
    as (s' & q & Hmarg & Hm').
  { destruct q_dist as [q|].
    - eexists _, q. split; [by apply marginalize_given|].
      simpl. apply lookup_insert_eq.
    - destruct Hv as [v Hv]; [done|].
      eexists _, _. split; [by eapply marginalize_default|].
      simpl. apply lookup_insert_eq. }
  eexists s', _. split; [done|]. split; [by apply outputs_Ok|].
  rewrite (outputs_Ok _ _ _ Hm'). simpl. f_equal.
  rewrite list_filter_filter. apply list_filter_iff.
  intros d. rewrite dict_keys_set. tauto.
Qed.

(** X5. [observe(v, val)] creates one new component, named
    ["observed_"] followed by the name of [v], unowned, without inputs,
    whose sample is the converted value, and registers it as the
    marginalization of [v] in both maps; the existing components are
    untouched. *)
Theorem observe_wraps_value self model_var val s m v :
  model_heap s !! self = Some m →
  comp_heap s !! model_var = Some v →
  ∃ s' q_dist m',
    observe self model_var val s = Ok tt s' ∧
    comp_heap s !! q_dist = None ∧
    comp_heap s' !! q_dist =
      Some (Component.mk ("observed_" +:+ Component.name v) None [] ∅
              (tf_convert_to_tensor val) ∅) ∧
    (∀ d c, comp_heap s !! d = Some c → comp_heap s' !! d = Some c) ∧
    model_heap s' !! self = Some m' ∧
    Dict.get model_var (JointModel._explicit_marginalizations m')
      = Some q_dist ∧
    JointModel._explicit_marginalizations_reverse m' !! q_dist
      = Some model_var ∧
    JointModel._components m' = JointModel._components m.
Proof.
  intros Hm Hv. eexists _, (fresh (dom (comp_heap s))), _.
  split; [by apply (observe_unfold _ _ _ _ m v)|]. simpl.
  assert (comp_heap s !! fresh (dom (comp_heap s)) = None) as Hfresh
    by apply not_elem_of_dom, is_fresh.
  split; [done|]. split; [apply lookup_insert_eq|]. split.
  { intros d c Hd. rewrite lookup_insert_ne; [done|]. congruence. }
  split; [apply lookup_insert_eq|]. simpl.
  split; [apply dict_get_set_eq|]. split; [apply lookup_insert_eq|done].
Qed.

(** X6. On a model built from a new JointModel by any sequence of
    extend, marginalize and observe calls, every variational component
    in use has an entry in the reverse map, and every entry of the
    reverse map names a marginalized variable. *)
Theorem reverse_map_covers name s0 self s1 cs s :
  __init__ name s0 = Ok self s1 →
  run self cs s1 = Some s →
  ∃ m, model_heap s !! self = Some m ∧ reverse_covers m.
Proof.
  intros Hinit Hrun.
  destruct (init_model _ _ _ _ Hinit) as (name' & Hm1 & _).
  destruct (run_growth _ _ _ _ _ Hm1 Hrun) as (m & Hm & _ & _ & Hcov).
  exists m. split; [done|]. apply Hcov. split; simpl; [done|].
  intros q v. by rewrite lookup_empty.
Qed.

End more_on_building.

Section more_on_inference.
Context `{Collaborators}.
Implicit Types (s : State) (m : JointModel.t) (c : Component.t).


(** X8. Without a cached variational model, [variational_model()]
    raises AssertionError as soon as one registered variational
    component is owned by an existing model (this one or another):
    the model is left without a cached variational model, and [_logp]
    fails the same way. *)
Theorem variational_model_rejects_owned self s m :
  model_heap s !! self = Some m →
  JointModel._explicit_variational_model m = None →
  Forall (allocated s) (Dict.values (JointModel._explicit_marginalizations m)) →
  Exists (λ q_dist, ∃ c (owner : mid),
            comp_heap s !! q_dist = Some c ∧
            Component.model c = Some owner ∧
            is_Some (model_heap s !! owner))
         (Dict.values (JointModel._explicit_marginalizations m)) →
  ∃ s', variational_model self s = Raise AssertionError s' ∧
        model_heap s' !! self = Some m ∧
        _logp self s = Raise AssertionError s'.
Proof.
  intros Hm Hcache Hall Hex.
  set (vm := fresh (dom (model_heap s))).
  assert (model_heap s !! vm = None) as Hfresh
    by apply not_elem_of_dom, is_fresh.
  assert (vm ≠ self) as Hne by congruence.
  set (name := String.substring 0 6 (uuid4_hex vm)).
  set (mv0 := JointModel.mk [] ∅ [] ∅ None ∅ ∅ name).
  set (s0 := mkState (comp_heap s) (<[vm := mv0]> (model_heap s))).
  destruct (build_loop_foreign vm
              (items (JointModel._explicit_marginalizations m)) s0 mv0)
    as (s' & Hloop & Hframe).
  { apply lookup_insert_eq. }
  { by rewrite (items_Permutation (JointModel._explicit_marginalizations m)). }
  { apply Exists_exists in Hex as (q & Hq & c & owner & Hc & Hown & Hlive).
    apply Exists_exists. exists q. split.
    - by rewrite (items_Permutation (JointModel._explicit_marginalizations m)).
    - exists c, owner. split; [done|]. split; [done|].
      intros ->. rewrite Hfresh in Hlive. by destruct Hlive. }
  assert (variational_model self s = Raise AssertionError s') as Hvm.
  { unfold variational_model.
    unfold bind at 1. unfold get_model at 1. rewrite Hm, Hcache.
    unfold bind at 1. unfold __init__, new_model.
    fold vm. fold name. fold mv0. fold s0.
    unfold bind at 1. unfold get_model at 1. simpl.
    rewrite lookup_insert_ne, Hm by done.
    unfold bind. by rewrite Hloop. }
  exists s'. split; [done|]. split.
  - rewrite (Hframe self (not_eq_sym Hne)). simpl.
    by rewrite lookup_insert_ne.
  - unfold _logp, bind. by rewrite Hvm.
Qed.

(** X9. When [_logp] returns, or raises KeyError, the variational model
    is cached in the store it leaves behind, the component list and the
    marginalization map are as before, and calling [_logp] again on
    that store has the same outcome and changes nothing. *)
Theorem logp_again self s s' :
  (∃ r, _logp self s = Ok r s') ∨ _logp self s = Raise KeyError s' →
  ∃ m m' vm,
    model_heap s !! self = Some m ∧
    model_heap s' !! self = Some m' ∧
    JointModel._explicit_variational_model m' = Some vm ∧
    JointModel._components m' = JointModel._components m ∧
    JointModel._explicit_marginalizations m' =
      JointModel._explicit_marginalizations m ∧
    _logp self s' = _logp self s.
Proof.
  intros Hout.
  destruct (variational_model self s) as [vm s1|e s1|] eqn:Hvm.
  - pose proof (logp_final_state _ _ _ _ Hvm) as Hfinal.
    assert (s' = s1) as ->.
    { destruct Hout as [[r Hr]|Hr]; by rewrite Hr in Hfinal. }
    destruct (variational_model_Ok_cache _ _ _ _ Hvm)
      as (m & m1 & Hm & Hm1 & Hcache & Hcomps & Hmarg).
    exists m, m1, vm. repeat split; try done.
    pose proof (variational_model_cached _ _ _ _ Hm1 Hcache) as Hvm1.
    unfold _logp. by rewrite (bind_Ok _ _ _ _ _ Hvm), (bind_Ok _ _ _ _ _ Hvm1).
  - exfalso. unfold _logp, bind in Hout. rewrite Hvm in Hout.
    destruct Hout as [[r Hr]|Hr]; [done|].
    injection Hr as -> ->. by apply no_KeyError_variational_model in Hvm.
  - exfalso. unfold _logp, bind in Hout. rewrite Hvm in Hout.
    by destruct Hout as [[r Hr]|Hr].
Qed.

(** X10. [_match_variational_names] never raises and leaves the store
    alone.  An entry of its result comes from an item of the sample
    whose variational component has a reverse entry, under the variable
    that entry names; items without one are dropped silently.  When
    several items go to the same variable the last one stays: the
    value of an item at any place of the sample is found under its
    variable whenever every item that comes after it and goes to the
    same variable has the same value.  One warning line is printed for
    each item kept, in order. *)
Theorem match_variational_names_renames self variational_sample s m :
  model_heap s !! self = Some m →
  ∃ renamed_sample printed,
    _match_variational_names self variational_sample s
      = Ok (renamed_sample, printed) s ∧
    (∀ v val, renamed_sample !! v = Some val →
       ∃ vnode vname,
         (vnode, vname, val) ∈ variational_sample ∧
         JointModel._explicit_marginalizations_reverse m !! vnode = Some v) ∧
    (∀ l1 vnode vname val l2 v,
       variational_sample = l1 ++ (vnode, vname, val) :: l2 →
       JointModel._explicit_marginalizations_reverse m !! vnode = Some v →
       (∀ vnode' vname' val',
          (vnode', vname', val') ∈ l2 →
          JointModel._explicit_marginalizations_reverse m !! vnode' = Some v →
          val' = val) →
       renamed_sample !! v = Some val) ∧
    printed =
      (λ item, warning item.1.2) <$>
        filter (λ item, is_Some (JointModel._explicit_marginalizations_reverse m
                                   !! item.1.1))
               variational_sample.
Proof.
  intros Hm.
  set (r := foldl (rename_step (JointModel._explicit_marginalizations_reverse m))
              (∅, []) variational_sample).
  exists r.1, r.2. split.
  { unfold _match_variational_names.
    rewrite (match_names_fold _ _ _ m) by done. fold r. by destruct r. }
  split; [|split].
  - intros v val [Hacc|Hin]%rename_fold_sound; [|done].
    simpl in Hacc. by rewrite lookup_empty in Hacc.
  - intros l1 vnode vname val l2 v Hl Hrev Hsame. unfold r. rewrite Hl.
    by apply (rename_fold_later _ _ _ _ vnode vname).
  - unfold r. by rewrite rename_fold_printed.
Qed.

(** X11. On a model built from a new JointModel by any sequence of
    extend, marginalize and observe calls, [_match_variational_names]
    drops no item whose variational component currently marginalizes
    a variable, and every key of its result is a marginalized
    variable. *)
Theorem match_variational_names_on_built_model name s0 self s1 cs s
    variational_sample :
  __init__ name s0 = Ok self s1 →
  run self cs s1 = Some s →
  ∃ m renamed_sample printed,
    model_heap s !! self = Some m ∧
    _match_variational_names self variational_sample s
      = Ok (renamed_sample, printed) s ∧
    (∀ v, is_Some (renamed_sample !! v) →
          v ∈ Dict.keys (JointModel._explicit_marginalizations m)) ∧
    (Forall (λ item, ∃ v, Dict.get v (JointModel._explicit_marginalizations m)
                            = Some item.1.1) variational_sample →
     length printed = length variational_sample).
Proof.
  intros Hinit Hrun.
  destruct (init_model _ _ _ _ Hinit) as (name' & Hm1 & _).
  destruct (run_growth _ _ _ _ _ Hm1 Hrun) as (m & Hm & _ & _ & Hcov).
  destruct Hcov as [Hfwd Hbwd].
  { split; simpl; [done|]. intros q v. by rewrite lookup_empty. }
  set (r := foldl (rename_step (JointModel._explicit_marginalizations_reverse m))
              (∅, []) variational_sample).
  exists m, r.1, r.2. split; [done|]. split.
  { unfold _match_variational_names.
    rewrite (match_names_fold _ _ _ m) by done. fold r. by destruct r. }
  split.
  - intros v [val [Hacc|(vnode & vname & _ & Hrev)]%rename_fold_sound].
    + simpl in Hacc. by rewrite lookup_empty in Hacc.
    + by eapply Hbwd.
  - intros Hall. unfold r. rewrite rename_fold_printed. simpl.
    rewrite length_fmap. f_equal.
    induction Hall as [|item l [v Hv] _ IH]; [done|].
    rewrite filter_cons_True by (by eapply Hfwd). by rewrite IH.
Qed.

End more_on_inference.

Section more_on_training.
Context `{Runtime}.
Implicit Types (s : State) (w : World) (m : JointModel.t).

(** X12. When the variational model is there (or can be built) and the
    components answer [_optimized_params], [posterior] returns; it
    reports only variational components, under their names, with the
    parameters they answered, and never an empty parameter
    dictionary.  Its only effect on the store is that of
    [variational_model()]. *)
Theorem posterior_reports_parameters self session feed_dict w s vm s1 mv :
  variational_model self s = Ok vm s1 →
  model_heap s1 !! vm = Some mv →
  Forall (allocated s1) (JointModel._components mv) →
  (∀ node, node ∈ JointModel._components mv → ∀ w0, ∃ d w0',
     _optimized_params node session feed_dict s1 w0 = Done d w0') →
  ∃ r w',
    posterior self session feed_dict w s = Returned r w' s1 ∧
    ∀ n d, r !! n = Some d →
      d ≠ ∅ ∧
      ∃ node c w0 w0',
        node ∈ JointModel._components mv ∧
        comp_heap s1 !! node = Some c ∧ Component.name c = n ∧
        _optimized_params node session feed_dict s1 w0 = Done d w0'.
Proof.
  intros Hvm Hmv Hall Hext.
  destruct (posterior_loop session feed_dict s1 _ ∅ w Hall Hext)
    as (r & w' & Hloop & Hr).
  exists r, w'. split.
  - unfold posterior.
    rewrite (tbind_Returned _ _ _ _ _ _ _ (lift_Ok _ w _ _ _ Hvm)).
    assert (get_model vm s1 = Ok mv s1) as Hget
      by (unfold get_model; by rewrite Hmv).
    by rewrite (tbind_Returned _ _ _ _ _ _ _ (lift_Ok _ w _ _ _ Hget)).
  - intros n d [Hacc|Hnew]%Hr; [|done]. by rewrite lookup_empty in Hacc.
Qed.

(** X13. [train] returns only when at least one step was asked for,
    [_logp] returned and the optimizer could be built: with [steps] at
    most 0, or when [minimize] raises ValueError, it never returns a
    posterior. *)
Theorem train_returns_only_after_a_step self steps adam_rate debug
    return_session w s r w' s' :
  train self steps adam_rate debug return_session w s = Returned r w' s' →
  (0 < steps)%Z ∧
  ∃ elbo sample_stochastic s1 train_step w1,
    _logp self s = Ok (elbo, sample_stochastic) s1 ∧
    AdamOptimizer_minimize adam_rate (tf_neg elbo) w = Done train_step w1.
Proof.
  unfold train.
  intros ([elbo eps] & w0 & s1 & [Hlogp ->]%lift_Returned_inv & Hrest)
    %tbind_Returned_inv.
  apply tbind_Returned_inv in Hrest
    as ([train_step steps'] & w1 & s2 & Hopt & Hrest).
  assert (0 < Z.to_nat steps') as Hsteps.
  { apply tbind_Returned_inv in Hrest as (init & w2 & s3 & _ & Hrest).
    apply tbind_Returned_inv in Hrest as (debug_ops & w3 & s4 & _ & Hrest).
    apply tbind_Returned_inv in Hrest as (sess & w4 & s5 & _ & Hrest).
    apply tbind_Returned_inv in Hrest as (u & w5 & s6 & _ & Hrest).
    apply tbind_Returned_inv in Hrest as (fd & w6 & s7 & Hloop & Hrest).
    destruct (Z.to_nat steps') as [|n]; [|lia].
    simpl in Hloop. injection Hloop as <- <- <-.
    by apply tbind_Returned_inv in Hrest as (? & ? & ? & ? & _). }
  revert Hopt. unfold try_except_ValueError, tbind at 1, run_external.
  destruct (AdamOptimizer_minimize adam_rate (tf_neg elbo) w)
    as [ts w1'|e w1'] eqn:Hmin.
  - intros [= <- <- <- <-]. split; [lia|]. by exists elbo, eps, s1, ts, w1'.
  - destruct e; try done. unfold tbind, effect, tret.
    intros [= <- <- <- <-]. simpl in Hsteps. lia.
Qed.

(** X14. With no step to run ([steps] at most 0, or ValueError from
    [minimize], which is printed), [train] sets the session up and then
    raises UnboundLocalError: the local variable [fd], assigned only
    inside the loop, is read after it. *)
Theorem train_without_steps self (steps : Z) adam_rate (debug : bool)
    return_session w s elbo sample_stochastic s1 w1 w2 w3 w4 init sess :
  _logp self s = Ok (elbo, sample_stochastic) s1 →
  (∃ train_step,
     AdamOptimizer_minimize adam_rate (tf_neg elbo) w = Done train_step w1 ∧
     (steps ≤ 0)%Z) ∨
  (∃ w0, AdamOptimizer_minimize adam_rate (tf_neg elbo) w
           = Failed ValueError w0 ∧
         w1 = print_exception ValueError w0) →
  tf_initialize_all_variables w1 = Done init w2 →
  (if debug then ∃ ops, tf_add_check_numerics_ops w2 = Done ops w3
   else w3 = w2) →
  tf_Session w3 = Done sess w4 →
  ∀ w5, sess_run_op sess init None w4 = Done tt w5 →
  train self steps adam_rate debug return_session w s
    = Threw (UnboundLocalError "fd") w5 s1.
Proof.
  intros Hlogp Hmin Hinit Hdebug Hsess w5 Hrun. unfold train.
  rewrite (tbind_Returned _ _ _ _ _ _ _ (lift_Ok _ w _ _ _ Hlogp)).
  assert (∃ train_step steps',
            try_except_ValueError
              (tbind (run_external
                        (AdamOptimizer_minimize adam_rate (tf_neg elbo)))
                 (λ train_step, tret (Some train_step, steps)))
              (λ e, tbind (effect (print_exception e))
                      (λ _, tret (None, 0%Z))) w s1
              = Returned (train_step, steps') w1 s1 ∧ Z.to_nat steps' = 0)
    as (train_step & steps' & Hopt & Hzero).
  { unfold try_except_ValueError, tbind at 1, run_external.
    destruct Hmin as [(ts & -> & Hle)|(w0 & -> & ->)].
    - exists (Some ts), steps. split; [done|]. lia.
    - by exists None, 0%Z. }
  rewrite (tbind_Returned _ _ _ _ _ _ _ Hopt).
  rewrite (tbind_Returned _ _ _ _ _ _ _ (run_external_Done _ _ s1 _ _ Hinit)).
  assert (∃ debug_ops,
            (if debug then
               tbind (run_external tf_add_check_numerics_ops)
                 (λ ops, tret (Some ops))
             else tret None) w2 s1 = Returned debug_ops w3 s1)
    as (debug_ops & Hops).
  { destruct debug.
    - destruct Hdebug as [ops Hops]. exists (Some ops).
      by rewrite (tbind_Returned _ _ _ _ _ _ _
                    (run_external_Done _ _ s1 _ _ Hops)).
    - subst w3. by exists None. }
  rewrite (tbind_Returned _ _ _ _ _ _ _ Hops).
  rewrite (tbind_Returned _ _ _ _ _ _ _ (run_external_Done _ _ s1 _ _ Hsess)).
  rewrite (tbind_Returned _ _ _ _ _ _ _ (run_external_Done _ _ s1 _ _ Hrun)).
  by rewrite Hzero.
Qed.

End more_on_training.

(* ===================================================================== *)
(** * The claims on concrete stores                                       *)
(* ===================================================================== *)

Module Checks.
Import Example.
#[local] Existing Instance toy_backend.
#[local] Existing Instance toy_collaborators.

Lemma component_closed_no_inputs (s : State) (d : cid) c :
  comp_heap s !! d = Some c →
  Component.inputs_random c = ∅ →
  component_closed s d.
Proof.
  intros Hc Hin. exists c. split; [done|]. rewrite Hin.
  apply map_Forall_empty.
Qed.

(** C2 fails on the code: on the model of [store_built], with three
    components and two marginalized variables, [outputs()] takes 14
    steps, more than the three of one pass over the component list. *)
Lemma outputs_costs_more_than_one_pass :
  __init__ (Some "jm") store0 = Ok 0 store_new ∧
  run 0 calls store_new = Some store_built ∧
  ∃ m steps,
    model_heap store_built !! 0 = Some m ∧
    outputs_steps 0 store_built = Ok steps store_built ∧
    length (JointModel._components m) = 3 ∧ steps = 14 ∧
    ¬ steps ≤ length (JointModel._components m).
Proof.
  split; [vm_compute; reflexivity|]. split; [vm_compute; reflexivity|].
  exists (the_model store_built 0), 14.
  split; [vm_compute; reflexivity|]. split; [vm_compute; reflexivity|].
  split; [vm_compute; reflexivity|]. split; [reflexivity|].
  change (JointModel._components (the_model store_built 0)) with [0; 1; 4].
  simpl. lia.
Qed.

Lemma outputs_never_marginalized_witness :
  __init__ (Some "jm") store0 = Ok 0 store_new ∧
  run 0 calls store_new = Some store_built ∧
  ∃ m steps,
    model_heap store_built !! 0 = Some m ∧
    outputs 0 store_built =
      Ok (filter (λ d, d ∉ passed calls) (JointModel._components m))
         store_built ∧
    outputs_steps 0 store_built = Ok steps store_built ∧
    length (JointModel._components m) *
      (1 + length (Dict.keys (JointModel._explicit_marginalizations m)))
      ≤ steps ∧
    steps ≤
      length (JointModel._components m) *
        (1 + 2 * length (Dict.keys (JointModel._explicit_marginalizations m))).
Proof.
  assert (__init__ (Some "jm") store0 = Ok 0 store_new) as Hinit
    by (vm_compute; reflexivity).
  assert (run 0 calls store_new = Some store_built) as Hrun
    by (vm_compute; reflexivity).
  split; [exact Hinit|]. split; [exact Hrun|].
  exact (outputs_never_marginalized _ _ _ _ _ _ Hinit Hrun).
Defined.

Example outputs_of_store_built : returned (outputs 0 store_built) = Some [1].
Proof. vm_compute. reflexivity. Qed.


(** C4 fails on the code: a second marginalization of [A], and the
    marginalization of a variable that is no component, both return. *)
Lemma marginalize_never_rejects :
  ∃ m s1 s2,
    model_heap store_AB_qA !! 0 = Some m ∧
    JointModel._components m = [0; 1] ∧
    Dict.get 0 (JointModel._explicit_marginalizations m) = Some 2 ∧
    marginalize 0 0 (Some 3) store_AB_qA = Ok tt s1 ∧
    marginalize 0 7 (Some 3) store_AB_qA = Ok tt s2.
Proof.
  exists (the_model store_AB_qA 0).
  eexists (store_after (jm <- __init__ (Some "jm") ;;
                        extend jm 0 ;;; extend jm 1 ;;;
                        marginalize jm 0 (Some 2) ;;;
                        marginalize jm 0 (Some 3))).
  eexists (store_after (jm <- __init__ (Some "jm") ;;
                        extend jm 0 ;;; extend jm 1 ;;;
                        marginalize jm 0 (Some 2) ;;;
                        marginalize jm 7 (Some 3))).
  repeat split; vm_compute; reflexivity.
Qed.

Lemma marginalize_overwrites_witness :
  model_heap store_AB_qA !! 0 = Some (the_model store_AB_qA 0) ∧
  ∃ s' m',
    marginalize 0 0 (Some 3) store_AB_qA = Ok tt s' ∧
    model_heap s' !! 0 = Some m' ∧
    Dict.get 0 (JointModel._explicit_marginalizations m') = Some 3 ∧
    (∀ v, v ≠ 0 →
          Dict.get v (JointModel._explicit_marginalizations m') =
          Dict.get v (JointModel._explicit_marginalizations
                        (the_model store_AB_qA 0))) ∧
    JointModel._explicit_marginalizations_reverse m' =
      <[3 := 0]> (JointModel._explicit_marginalizations_reverse
                    (the_model store_AB_qA 0)).
Proof.
  assert (model_heap store_AB_qA !! 0 = Some (the_model store_AB_qA 0)) as Hm
    by (vm_compute; reflexivity).
  split; [exact Hm|].
  exact (marginalize_overwrites 0 0 3 store_AB_qA _ Hm).
Defined.

Lemma marginalize_frame_witness :
  model_heap store_AB_qA !! 0 = Some (the_model store_AB_qA 0) ∧
  allocated store_AB_qA 1 ∧
  ∃ s' m',
    marginalize 0 1 None store_AB_qA = Ok tt s' ∧
    model_heap s' !! 0 = Some m' ∧
    JointModel._components m' = [0; 1] ∧
    JointModel._explicit_variational_model m' = None.
Proof.
  assert (model_heap store_AB_qA !! 0 = Some (the_model store_AB_qA 0)) as Hm
    by (vm_compute; reflexivity).
  assert (allocated store_AB_qA 1) as Hv
    by (exists (the_component store_AB_qA 1); vm_compute; reflexivity).
  split; [exact Hm|]. split; [exact Hv|].
  destruct (marginalize_frame 0 1 None store_AB_qA _ Hm (λ _, Hv))
    as (s' & m' & Hmarg & Hm' & Hcomps & _ & _ & _ & _ & Hcache & _).
  exists s', m'. split; [exact Hmarg|]. split; [exact Hm'|].
  split; [exact Hcomps|exact Hcache].
Defined.

(** C5 fails on the code: [A] is attached to the model (identity 0) and
    extending by it again changes the component list. *)
Lemma extend_again_appends :
  ∃ c m s' m',
    comp_heap store_AB !! 0 = Some c ∧ Component.model c = Some 0 ∧
    model_heap store_AB !! 0 = Some m ∧ 0 ∈ JointModel._components m ∧
    extend 0 0 store_AB = Ok tt s' ∧
    model_heap s' !! 0 = Some m' ∧
    JointModel._components m = [0; 1] ∧
    JointModel._components m' = [0; 1; 0].
Proof.
  set (s' := store_after (jm <- __init__ (Some "jm") ;;
                           extend jm 0 ;;; extend jm 1 ;;; extend jm 0)).
  exists (the_component store_AB 0), (the_model store_AB 0), s',
    (the_model s' 0).
  repeat split; try (vm_compute; reflexivity).
  apply (bool_decide_unpack _). vm_compute. exact I.
Qed.

Lemma extend_attached_appends_witness :
  comp_heap store_AB !! 1 = Some (the_component store_AB 1) ∧
  model_heap store_AB !! 0 = Some (the_model store_AB 0) ∧
  Component.model (the_component store_AB 1) = Some 0 ∧
  1 ∈ JointModel._components (the_model store_AB 0) ∧
  ∃ s' m',
    extend 0 1 store_AB = Ok tt s' ∧
    model_heap s' !! 0 = Some m' ∧
    JointModel._components m' = [0; 1; 1] ∧
    JointModel.inputs_random m' = ∅.
Proof.
  assert (comp_heap store_AB !! 1 = Some (the_component store_AB 1)) as Hc
    by (vm_compute; reflexivity).
  assert (model_heap store_AB !! 0 = Some (the_model store_AB 0)) as Hm
    by (vm_compute; reflexivity).
  assert (Component.model (the_component store_AB 1) = Some 0) as Hown
    by (vm_compute; reflexivity).
  assert (1 ∈ JointModel._components (the_model store_AB 0)) as Hin
    by (apply (bool_decide_unpack _); vm_compute; exact I).
  split; [exact Hc|]. split; [exact Hm|]. split; [exact Hown|].
  split; [exact Hin|].
  destruct (extend_attached_appends 0 1 store_AB _ _ Hc Hm Hown Hin)
    as (s' & m' & Hext & Hm' & Hcomps & _ & _ & Hsame & _).
  exists s', m'. split; [exact Hext|]. split; [exact Hm'|].
  split; [exact Hcomps|]. rewrite Hsame; [vm_compute; reflexivity|].
  intros param node Hp Hout. exfalso. apply Hout.
  destruct (decide (param = "mean")) as [->|Hne].
  - vm_compute in Hp. injection Hp as <-.
    apply (bool_decide_unpack _). vm_compute. exact I.
  - change (Component.inputs_random (the_component store_AB 1))
      with ({["mean" := 0]} : gmap string cid) in Hp.
    by rewrite lookup_singleton_ne in Hp.
Defined.

(** C6 fails on the code: both components called [A] are accepted, and
    neither is found in the name lookup. *)
Lemma extend_does_not_register :
  ∃ s c0 c4 m,
    (jm <- __init__ (Some "jm") ;; extend jm 0 ;;; extend jm 4) store0
      = Ok tt s ∧
    comp_heap s !! 0 = Some c0 ∧ comp_heap s !! 4 = Some c4 ∧
    Component.name c0 = Component.name c4 ∧
    model_heap s !! 0 = Some m ∧
    JointModel._components m = [0; 4] ∧
    JointModel._components_by_key m !! Component.name c0 = None.
Proof.
  exists store_AA, (the_component store_AA 0), (the_component store_AA 4),
    (the_model store_AA 0).
  repeat split; vm_compute; reflexivity.
Qed.

Lemma name_lookup_stays_empty_witness :
  __init__ (Some "jm") store0 = Ok 0 store_new ∧
  run 0 calls store_new = Some store_built ∧
  ∃ m, model_heap store_built !! 0 = Some m ∧
       JointModel._components_by_key m = ∅.
Proof.
  assert (__init__ (Some "jm") store0 = Ok 0 store_new) as Hinit
    by (vm_compute; reflexivity).
  assert (run 0 calls store_new = Some store_built) as Hrun
    by (vm_compute; reflexivity).
  split; [exact Hinit|]. split; [exact Hrun|].
  destruct (name_lookup_stays_empty _ _ _ _ _ _ Hinit Hrun)
    as (m & Hm & Hkey & _).
  exists m. split; [exact Hm|exact Hkey].
Defined.


Lemma ready_uncached (s : State) (m : JointModel.t) :
  JointModel._explicit_variational_model m = None →
  Forall (λ q_dist, component_closed s q_dist ∧
                    ∃ c, comp_heap s !! q_dist = Some c ∧
                         Component.model c = None)
         (Dict.values (JointModel._explicit_marginalizations m)) →
  variational_model_ready s m.
Proof. unfold variational_model_ready. by intros ->. Qed.

Lemma closed_unowned (s : State) (q_dist : cid) c :
  comp_heap s !! q_dist = Some c →
  Component.inputs_random c = ∅ →
  Component.model c = None →
  component_closed s q_dist ∧
  ∃ c, comp_heap s !! q_dist = Some c ∧ Component.model c = None.
Proof.
  intros Hc Hin Hown. split; [by eapply component_closed_no_inputs|].
  by exists c.
Qed.

(** C1 fails on the code: both components have a marginalization, but
    the one of [A] is [B], which the model itself owns, and [_logp]
    stops at the ownership assertion of [extend]. *)
Lemma logp_owned_variational_component :
  ∃ m s',
    model_heap store_owned_q !! 0 = Some m ∧
    JointModel._components m = [0; 1] ∧
    JointModel._explicit_marginalizations m = [(0, 1); (1, 3)] ∧
    Forall (λ d, is_Some (Dict.get d (JointModel._explicit_marginalizations m)))
           (JointModel._components m) ∧
    _logp 0 store_owned_q = Raise AssertionError s'.
Proof.
  exists (the_model store_owned_q 0),
    (store_after (jm <- __init__ (Some "jm") ;;
                  extend jm 0 ;;; extend jm 1 ;;;
                  marginalize jm 0 (Some 1) ;;; marginalize jm 1 (Some 3) ;;;
                  _logp jm)).
  split; [vm_compute; reflexivity|]. split; [vm_compute; reflexivity|].
  split; [vm_compute; reflexivity|]. split; [|vm_compute; reflexivity].
  apply (bool_decide_unpack _). vm_compute. exact I.
Qed.

Lemma logp_assembles_elbo_witness :
  model_heap store_AB_qA_qB !! 0 = Some (the_model store_AB_qA_qB 0) ∧
  Forall (allocated store_AB_qA_qB)
         (JointModel._components (the_model store_AB_qA_qB 0)) ∧
  Forall (λ d, is_Some (Dict.get d (JointModel._explicit_marginalizations
                                      (the_model store_AB_qA_qB 0))))
         (JointModel._components (the_model store_AB_qA_qB 0)) ∧
  variational_model_ready store_AB_qA_qB (the_model store_AB_qA_qB 0) ∧
  ∃ vm s1 q_sample stochastic_eps_fn q_entropy,
    variational_model 0 store_AB_qA_qB = Ok vm s1 ∧
    _sample vm ∅ s1 = Ok (q_sample, stochastic_eps_fn) s1 ∧
    _entropy_lower_bound vm s1 = Ok q_entropy s1 ∧
    _logp 0 store_AB_qA_qB =
      Ok (tf_add
            (tf_sum (component_expected_logp
                       (JointModel._explicit_marginalizations
                          (the_model store_AB_qA_qB 0)) s1
                     <$> JointModel._components (the_model store_AB_qA_qB 0)))
            q_entropy,
          stochastic_eps_fn) s1.
Proof.
  assert (model_heap store_AB_qA_qB !! 0 = Some (the_model store_AB_qA_qB 0))
    as Hm by (vm_compute; reflexivity).
  assert (Forall (allocated store_AB_qA_qB)
            (JointModel._components (the_model store_AB_qA_qB 0))) as Halloc
    by (unfold allocated; apply (bool_decide_unpack _); vm_compute; exact I).
  assert (Forall (λ d, is_Some (Dict.get d (JointModel._explicit_marginalizations
                                              (the_model store_AB_qA_qB 0))))
            (JointModel._components (the_model store_AB_qA_qB 0))) as Hmarg
    by (apply (bool_decide_unpack _); vm_compute; exact I).
  assert (variational_model_ready store_AB_qA_qB (the_model store_AB_qA_qB 0))
    as Hready.
  { apply ready_uncached; [vm_compute; reflexivity|].
    change (Dict.values (JointModel._explicit_marginalizations
                           (the_model store_AB_qA_qB 0))) with [2; 3].
    apply List.Forall_cons; [|apply List.Forall_cons; [|apply List.Forall_nil]].
    - apply (closed_unowned _ _ (the_component store_AB_qA_qB 2));
        vm_compute; reflexivity.
    - apply (closed_unowned _ _ (the_component store_AB_qA_qB 3));
        vm_compute; reflexivity. }
  split; [exact Hm|]. split; [exact Halloc|]. split; [exact Hmarg|].
  split; [exact Hready|].
  exact (logp_assembles_elbo 0 store_AB_qA_qB _ Hm Halloc Hmarg Hready).
Defined.

(** On that store the bound is [(1 + 3) + (20 + 30)]. *)
Example logp_of_store_AB_qA_qB :
  returned (_logp 0 store_AB_qA_qB) = Some ([54%Z], mkSampleAllSources ∅).
Proof. vm_compute. reflexivity. Qed.

(** C3 fails on the code: the variational model was built when only [A]
    was marginalized; after [B] is marginalized too, the call returns
    the cached instance, whose only component is [qA]. *)
Lemma variational_model_stale :
  ∃ vm s m mv,
    variational_model 0 store_stale = Ok vm s ∧
    model_heap s !! 0 = Some m ∧
    model_heap s !! vm = Some mv ∧
    Dict.values (JointModel._explicit_marginalizations m) = [2; 3] ∧
    JointModel._components mv = [2].
Proof.
  exists 1, store_stale, (the_model store_stale 0), (the_model store_stale 1).
  repeat split; vm_compute; reflexivity.
Qed.

Lemma variational_model_memoized_witness :
  model_heap store_AB_qA !! 0 = Some (the_model store_AB_qA 0) ∧
  ∃ vm s1 mv,
    variational_model 0 store_AB_qA = Ok vm s1 ∧
    model_heap store_AB_qA !! vm = None ∧
    model_heap s1 !! vm = Some mv ∧
    JointModel._components mv = [2] ∧
    variational_model 0 s1 = Ok vm s1.
Proof.
  assert (model_heap store_AB_qA !! 0 = Some (the_model store_AB_qA 0)) as Hm
    by (vm_compute; reflexivity).
  split; [exact Hm|].
  destruct (variational_model_memoized 0 store_AB_qA _ Hm) as [Hbuild _].
  apply Hbuild; [vm_compute; reflexivity|].
  change (Dict.values (JointModel._explicit_marginalizations
                         (the_model store_AB_qA 0))) with [2].
  apply List.Forall_cons; [|apply List.Forall_nil].
  exists (the_component store_AB_qA 2). split; vm_compute; reflexivity.
Defined.

(** C7 fails on the code: model 0 of [store_stale] marginalizes [A] by
    [qA] and [B] by [qB] and nothing else, but its variational model
    was built when only [A] was marginalized.  The entropy lower bound
    of that model is the term of [qA] alone, 20, and not the sum
    [20 + 30] of the terms of [qA] and [qB]. *)
Lemma entropy_of_stale_variational_model :
  ∃ m vm,
    model_heap store_stale !! 0 = Some m ∧
    JointModel._explicit_marginalizations m = [(0, 2); (1, 3)] ∧
    variational_model 0 store_stale = Ok vm store_stale ∧
    _entropy_lower_bound vm store_stale = Ok [20%Z] store_stale ∧
    component_entropy store_stale <$> [2; 3] = [[20%Z]; [30%Z]] ∧
    tf_sum (component_entropy store_stale <$> [2; 3]) = [50%Z] ∧
    ∀ l, l ≡ₚ [2; 3] →
         _entropy_lower_bound vm store_stale ≠
           Ok (tf_sum (component_entropy store_stale <$> l)) store_stale.
Proof.
  exists (the_model store_stale 0), 1.
  split; [vm_compute; reflexivity|]. split; [vm_compute; reflexivity|].
  split; [vm_compute; reflexivity|]. split; [vm_compute; reflexivity|].
  split; [vm_compute; reflexivity|]. split; [vm_compute; reflexivity|].
  intros l Hl Heq. apply (f_equal returned) in Heq.
  symmetry in Hl. apply Permutation_length_2_inv in Hl as [-> | ->];
    vm_compute in Heq; discriminate Heq.
Qed.

Lemma entropy_lower_bound_sums_witness :
  model_heap store_vm !! 1 = Some (the_model store_vm 1) ∧
  Forall (component_closed store_vm)
         (JointModel._components (the_model store_vm 1)) ∧
  _entropy_lower_bound 1 store_vm =
    Ok (tf_sum (component_entropy store_vm <$> [2; 3])) store_vm ∧
  ∃ vm s1 l,
    variational_model 0 store_AB_qA_qB = Ok vm s1 ∧
    l ≡ₚ [2; 3] ∧
    _entropy_lower_bound vm s1 = Ok (tf_sum (component_entropy s1 <$> l)) s1.
Proof.
  assert (model_heap store_vm !! 1 = Some (the_model store_vm 1)) as Hm
    by (vm_compute; reflexivity).
  assert (Forall (component_closed store_vm)
            (JointModel._components (the_model store_vm 1))) as Hcl.
  { change (JointModel._components (the_model store_vm 1)) with [2; 3].
    apply List.Forall_cons; [|apply List.Forall_cons; [|apply List.Forall_nil]].
    - apply (component_closed_no_inputs _ _ (the_component store_vm 2));
        vm_compute; reflexivity.
    - apply (component_closed_no_inputs _ _ (the_component store_vm 3));
        vm_compute; reflexivity. }
  split; [exact Hm|]. split; [exact Hcl|].
  destruct (entropy_lower_bound_sums 1 store_vm _ Hm Hcl) as [Hsum Htwo].
  split; [exact Hsum|].
  apply (Htwo 0 store_AB_qA_qB (the_model store_AB_qA_qB 0) 0 1 2 3);
    [vm_compute; reflexivity..|].
  apply List.Forall_cons; [|apply List.Forall_cons; [|apply List.Forall_nil]].
  - apply (closed_unowned _ _ (the_component store_AB_qA_qB 2));
      vm_compute; reflexivity.
  - apply (closed_unowned _ _ (the_component store_AB_qA_qB 3));
      vm_compute; reflexivity.
Defined.

(** On that store the entropy lower bound is [20 + 30]. *)
Example entropy_of_store_vm :
  returned (_entropy_lower_bound 1 store_vm) = Some [50%Z].
Proof. vm_compute. reflexivity. Qed.

Lemma logp_without_marginalizations_witness :
  model_heap store_AB !! 0 = Some (the_model store_AB 0) ∧
  JointModel._components (the_model store_AB 0) ≠ [] ∧
  JointModel._explicit_marginalizations (the_model store_AB 0) = [] ∧
  Forall (allocated store_AB) (JointModel._components (the_model store_AB 0)) ∧
  (∀ vm, JointModel._explicit_variational_model (the_model store_AB 0)
           = Some vm →
         ∃ mv, model_heap store_AB !! vm = Some mv ∧
               Forall (component_closed store_AB) (JointModel._components mv)) ∧
  ∃ s',
    _logp 0 store_AB = Raise KeyError s' ∧
    (∀ input_vals, (∃ r, _sample 0 input_vals store_AB = Ok r store_AB) ∧
                   (∃ r, _sample 0 input_vals s' = Ok r s')) ∧
    outputs 0 store_AB = Ok (JointModel._components (the_model store_AB 0))
                            store_AB ∧
    outputs 0 s' = Ok (JointModel._components (the_model store_AB 0)) s'.
Proof.
  assert (model_heap store_AB !! 0 = Some (the_model store_AB 0)) as Hm
    by (vm_compute; reflexivity).
  assert (JointModel._components (the_model store_AB 0) ≠ []) as Hne
    by (vm_compute; discriminate).
  assert (JointModel._explicit_marginalizations (the_model store_AB 0) = [])
    as Hmarg by (vm_compute; reflexivity).
  assert (Forall (allocated store_AB)
            (JointModel._components (the_model store_AB 0))) as Halloc
    by (unfold allocated; apply (bool_decide_unpack _); vm_compute; exact I).
  assert (∀ vm, JointModel._explicit_variational_model (the_model store_AB 0)
                  = Some vm →
                ∃ mv, model_heap store_AB !! vm = Some mv ∧
                      Forall (component_closed store_AB)
                             (JointModel._components mv)) as Hready
    by (intros vm Hvm; vm_compute in Hvm; discriminate Hvm).
  split; [exact Hm|]. split; [exact Hne|]. split; [exact Hmarg|].
  split; [exact Halloc|]. split; [exact Hready|].
  exact (logp_without_marginalizations 0 store_AB _ Hm Hne Hmarg Halloc Hready).
Defined.

Lemma logp_skips_failed_input_lookups_witness :
  model_heap store_AB_qA !! 0 = Some (the_model store_AB_qA 0) ∧
  collect_component_qs 0 (the_component store_AB_qA 1) store_AB_qA =
    Ok {["q_mean" := 2]} store_AB_qA ∧
  (∀ s', _logp 0 store_AB_qA = Raise KeyError s' →
         ∃ d, d ∈ [0; 1] ∧ Dict.get d [(0, 2)] = None).
Proof.
  assert (model_heap store_AB_qA !! 0 = Some (the_model store_AB_qA 0)) as Hm
    by (vm_compute; reflexivity).
  split; [exact Hm|].
  destruct (logp_skips_failed_input_lookups 0 store_AB_qA _
              (the_component store_AB_qA 1) Hm) as (Hcollect & _ & Hraise).
  split; [|exact Hraise]. rewrite Hcollect. vm_compute. reflexivity.
Defined.

(** On that store [B] has no marginalization and [_logp] raises. *)
Example logp_of_store_AB_qA : raised (_logp 0 store_AB_qA) = Some KeyError.
Proof. vm_compute. reflexivity. Qed.

End Checks.

(* ===================================================================== *)
(** * The further properties on concrete stores                           *)
(* ===================================================================== *)

Module MoreChecks.
Import Example ExampleRuntime.
#[local] Existing Instance toy_backend.
#[local] Existing Instance toy_collaborators.
#[local] Existing Instance toy_runtime.

Lemma extend_is_exclusive_witness :
  extend 0 0 store_new = Ok tt store_A ∧ 5 ≠ 0 ∧
  extend 5 0 store_A = Raise AssertionError store_A.
Proof.
  assert (extend 0 0 store_new = Ok tt store_A) as Hext
    by (vm_compute; reflexivity).
  assert (5 ≠ 0) as Hne by lia.
  split; [exact Hext|]. split; [exact Hne|].
  exact (extend_is_exclusive 0 5 0 store_new store_A Hext Hne).
Defined.

Lemma extend_new_component_witness :
  comp_heap store_new !! 1 = Some (the_component store_new 1) ∧
  Component.model (the_component store_new 1) = None ∧
  model_heap store_new !! 0 = Some (the_model store_new 0) ∧
  ∃ s' m',
    extend 0 1 store_new = Ok tt s' ∧
    model_heap s' !! 0 = Some m' ∧
    JointModel._components m' = [1] ∧
    JointModel.inputs_random m' !! (1, "mean") = Some 0.
Proof.
  assert (comp_heap store_new !! 1 = Some (the_component store_new 1)) as Hc
    by (vm_compute; reflexivity).
  assert (Component.model (the_component store_new 1) = None) as Hown
    by (vm_compute; reflexivity).
  assert (model_heap store_new !! 0 = Some (the_model store_new 0)) as Hm
    by (vm_compute; reflexivity).
  split; [exact Hc|]. split; [exact Hown|]. split; [exact Hm|].
  destruct (extend_new_component 0 1 store_new _ _ Hc Hown Hm)
    as (s' & c' & m' & Hext & _ & _ & _ & _ & Hm' & Hcomps & Hin & _).
  exists s', m'. split; [exact Hext|]. split; [exact Hm'|].
  split; [exact Hcomps|]. rewrite Hin. vm_compute. reflexivity.
Defined.

Lemma building_is_monotone_witness :
  model_heap store_new !! 0 = Some (the_model store_new 0) ∧
  run 0 calls store_new = Some store_built ∧
  ∃ m', model_heap store_built !! 0 = Some m' ∧
        JointModel._components (the_model store_new 0)
          `prefix_of` JointModel._components m'.
Proof.
  assert (model_heap store_new !! 0 = Some (the_model store_new 0)) as Hm
    by (vm_compute; reflexivity).
  assert (run 0 calls store_new = Some store_built) as Hrun
    by (vm_compute; reflexivity).
  split; [exact Hm|]. split; [exact Hrun|].
  destruct (building_is_monotone 0 calls store_new _ store_built Hm Hrun)
    as (m' & Hm' & Hpre & _).
  exists m'. split; [exact Hm'|exact Hpre].
Defined.

Lemma outputs_after_marginalize_witness :
  model_heap store_AB !! 0 = Some (the_model store_AB 0) ∧
  allocated store_AB 0 ∧
  ∃ s' out,
    marginalize 0 0 None store_AB = Ok tt s' ∧
    outputs 0 store_AB = Ok out store_AB ∧
    outputs 0 s' = Ok (filter (λ d, d ≠ 0) out) s'.
Proof.
  assert (model_heap store_AB !! 0 = Some (the_model store_AB 0)) as Hm
    by (vm_compute; reflexivity).
  assert (allocated store_AB 0) as Hv
    by (exists (the_component store_AB 0); vm_compute; reflexivity).
  split; [exact Hm|]. split; [exact Hv|].
  exact (outputs_after_marginalize 0 0 None store_AB _ Hm (λ _, Hv)).
Defined.

(** Marginalizing [A] leaves [B], which depends on it, as an output. *)
Example outputs_of_store_AB_qA :
  returned (outputs 0 store_AB) = Some [0; 1] ∧
  returned (outputs 0 store_AB_qA) = Some [1].
Proof. split; vm_compute; reflexivity. Qed.

Lemma observe_wraps_value_witness :
  model_heap store_AB !! 0 = Some (the_model store_AB 0) ∧
  comp_heap store_AB !! 1 = Some (the_component store_AB 1) ∧
  ∃ s' q_dist m',
    observe 0 1 7%Z store_AB = Ok tt s' ∧
    comp_heap s' !! q_dist = Some (Component.mk "observed_B" None [] ∅ [7%Z] ∅) ∧
    model_heap s' !! 0 = Some m' ∧
    Dict.get 1 (JointModel._explicit_marginalizations m') = Some q_dist.
Proof.
  assert (model_heap store_AB !! 0 = Some (the_model store_AB 0)) as Hm
    by (vm_compute; reflexivity).
  assert (comp_heap store_AB !! 1 = Some (the_component store_AB 1)) as Hv
    by (vm_compute; reflexivity).
  split; [exact Hm|]. split; [exact Hv|].
  destruct (observe_wraps_value 0 1 (7%Z : @Value toy_backend) store_AB _ _
              Hm Hv)
    as (s' & q & m' & Hobs & _ & Hq & _ & Hm' & Hget & _).
  exists s', q, m'. split; [exact Hobs|]. split; [exact Hq|].
  split; [exact Hm'|exact Hget].
Defined.

Lemma reverse_map_covers_witness :
  __init__ (Some "jm") store0 = Ok 0 store_new ∧
  run 0 calls store_new = Some store_built ∧
  ∃ m, model_heap store_built !! 0 = Some m ∧ reverse_covers m.
Proof.
  assert (__init__ (Some "jm") store0 = Ok 0 store_new) as Hinit
    by (vm_compute; reflexivity).
  assert (run 0 calls store_new = Some store_built) as Hrun
    by (vm_compute; reflexivity).
  split; [exact Hinit|]. split; [exact Hrun|].
  exact (reverse_map_covers _ _ _ _ _ _ Hinit Hrun).
Defined.


(** Both components of [store_AA] are called [A]; the dictionary holds
    the sample of the second. *)
Example sample_of_store_AA :
  (fst <$> returned (_sample 0 ∅ store_AA)) = Some {[inr "A" := [5%Z]]}.
Proof. vm_compute. reflexivity. Qed.

Lemma variational_model_rejects_owned_witness :
  model_heap store_owned_q !! 0 = Some (the_model store_owned_q 0) ∧
  JointModel._explicit_variational_model (the_model store_owned_q 0) = None ∧
  ∃ s', variational_model 0 store_owned_q = Raise AssertionError s' ∧
        model_heap s' !! 0 = Some (the_model store_owned_q 0) ∧
        _logp 0 store_owned_q = Raise AssertionError s'.
Proof.
  assert (model_heap store_owned_q !! 0 = Some (the_model store_owned_q 0))
    as Hm by (vm_compute; reflexivity).
  assert (JointModel._explicit_variational_model (the_model store_owned_q 0)
          = None) as Hcache by (vm_compute; reflexivity).
  split; [exact Hm|]. split; [exact Hcache|].
  apply (variational_model_rejects_owned 0 store_owned_q _ Hm Hcache).
  - unfold allocated. apply (bool_decide_unpack _). vm_compute. exact I.
  - change (Dict.values (JointModel._explicit_marginalizations
                           (the_model store_owned_q 0))) with [1; 3].
    apply Exists_cons_hd.
    exists (the_component store_owned_q 1), 0.
    split; [vm_compute; reflexivity|]. split; [vm_compute; reflexivity|].
    exists (the_model store_owned_q 0). vm_compute. reflexivity.
Defined.

Lemma logp_again_witness :
  _logp 0 store_AB_qA = Raise KeyError store_AB_qA_failed ∧
  ∃ m m' vm,
    model_heap store_AB_qA !! 0 = Some m ∧
    model_heap store_AB_qA_failed !! 0 = Some m' ∧
    JointModel._explicit_variational_model m = None ∧
    JointModel._explicit_variational_model m' = Some vm ∧
    _logp 0 store_AB_qA_failed = _logp 0 store_AB_qA.
Proof.
  assert (_logp 0 store_AB_qA = Raise KeyError store_AB_qA_failed) as Hlogp
    by (vm_compute; reflexivity).
  split; [exact Hlogp|].
  destruct (logp_again 0 store_AB_qA store_AB_qA_failed (or_intror Hlogp))
    as (m & m' & vm & Hm & Hm' & Hcache & _ & _ & Hagain).
  exists m, m', vm. split; [exact Hm|]. split; [exact Hm'|].
  split; [|split; [exact Hcache|exact Hagain]].
  assert (m = the_model store_AB_qA 0) as ->.
  { assert (model_heap store_AB_qA !! 0 = Some (the_model store_AB_qA 0))
      as Hm0 by (vm_compute; reflexivity).
    congruence. }
  vm_compute. reflexivity.
Defined.

Lemma match_variational_names_renames_witness :
  model_heap store_AB_qA !! 0 = Some (the_model store_AB_qA 0) ∧
  ∃ renamed_sample printed,
    _match_variational_names 0
      [(2, "loc", [1%Z]); (3, "loc", [7%Z]); (2, "scale", [2%Z])]
      store_AB_qA
      = Ok (renamed_sample, printed) store_AB_qA ∧
    renamed_sample !! 0 = Some [2%Z] ∧
    printed = [warning "loc"; warning "scale"].
Proof.
  assert (model_heap store_AB_qA !! 0 = Some (the_model store_AB_qA 0)) as Hm
    by (vm_compute; reflexivity).
  split; [exact Hm|].
  destruct (@match_variational_names_renames toy_backend 0
              [(2, "loc", [1%Z]); (3, "loc", [7%Z]); (2, "scale", [2%Z])]
              store_AB_qA _ Hm)
    as (renamed & printed & Hrun & _ & Hlast & Hprinted).
  exists renamed, printed. split; [exact Hrun|]. split.
  - apply (Hlast [(2, "loc", [1%Z]); (3, "loc", [7%Z])] 2 "scale" [2%Z] []).
    + reflexivity.
    + vm_compute. reflexivity.
    + intros vnode' vname' val' Hin.
      exact (False_ind _ (proj1 (elem_of_nil _) Hin)).
  - rewrite Hprinted. vm_compute. reflexivity.
Defined.

(** Two items for the variational component of [A]: the later one
    stays. *)
Example match_variational_names_last_item :
  (fst <$> returned (_match_variational_names 0
                       [(2, "loc", [1%Z]); (2, "scale", [2%Z])] store_AB_qA))
    = Some {[0 := [2%Z]]}.
Proof. vm_compute. reflexivity. Qed.

Lemma match_variational_names_on_built_model_witness :
  __init__ (Some "jm") store0 = Ok 0 store_new ∧
  run 0 calls store_new = Some store_built ∧
  ∃ m renamed_sample printed,
    model_heap store_built !! 0 = Some m ∧
    _match_variational_names 0 [(5, "loc", [1%Z])] store_built
      = Ok (renamed_sample, printed) store_built ∧
    length printed = 1.
Proof.
  assert (__init__ (Some "jm") store0 = Ok 0 store_new) as Hinit
    by (vm_compute; reflexivity).
  assert (run 0 calls store_new = Some store_built) as Hrun
    by (vm_compute; reflexivity).
  split; [exact Hinit|]. split; [exact Hrun|].
  destruct (@match_variational_names_on_built_model toy_backend
              toy_collaborators _ _ _ _ _ _
              [(5, "loc", [1%Z])] Hinit Hrun)
    as (m & renamed & printed & Hm & Hmatch & _ & Hlen).
  exists m, renamed, printed. split; [exact Hm|]. split; [exact Hmatch|].
  apply Hlen. apply List.Forall_cons; [|apply List.Forall_nil].
  exists 0. simpl.
  assert (model_heap store_built !! 0 = Some (the_model store_built 0)) as Hm0
    by (vm_compute; reflexivity).
  assert (m = the_model store_built 0) as -> by congruence.
  vm_compute. reflexivity.
Defined.

Lemma posterior_reports_parameters_witness :
  variational_model 0 store_AB_qA_qB = Ok 1 store_vm ∧
  model_heap store_vm !! 1 = Some (the_model store_vm 1) ∧
  Forall (allocated store_vm) (JointModel._components (the_model store_vm 1)) ∧
  ∃ r w',
    posterior 0 7 (Some 0) world0 store_AB_qA_qB = Returned r w' store_vm ∧
    ∀ n d, r !! n = Some d → d ≠ ∅.
Proof.
  assert (variational_model 0 store_AB_qA_qB = Ok 1 store_vm) as Hvm
    by (vm_compute; reflexivity).
  assert (model_heap store_vm !! 1 = Some (the_model store_vm 1)) as Hmv
    by (vm_compute; reflexivity).
  assert (Forall (allocated store_vm)
            (JointModel._components (the_model store_vm 1))) as Halloc
    by (unfold allocated; apply (bool_decide_unpack _); vm_compute; exact I).
  split; [exact Hvm|]. split; [exact Hmv|]. split; [exact Halloc|].
  destruct (@posterior_reports_parameters toy_backend toy_collaborators
              toy_runtime 0 7 (Some 0) world0 store_AB_qA_qB
              1 store_vm _ Hvm Hmv Halloc) as (r & w' & Hpost & Hr).
  { intros node _ w0. by eexists _, _. }
  exists r, w'. split; [exact Hpost|].
  intros n d Hd. by destruct (Hr n d Hd) as [Hne _].
Defined.

(** Of [qA] (2) and [qB] (3) only the first has parameters. *)
Example posterior_of_store_AB_qA_qB :
  match posterior 0 7 (Some 0) world0 store_AB_qA_qB with
  | Returned r _ _ => r = {["qA" := {["mean" := 2%Z]}]}
  | _ => False
  end.
Proof. vm_compute. reflexivity. Qed.

Lemma train_returns_only_after_a_step_witness :
  train 0 2 1%Z false false world0 store_AB_qA_qB
    = Returned trained_posterior trained_world store_vm ∧
  (0 < 2)%Z ∧
  ∃ elbo sample_stochastic s1 train_step w1,
    _logp 0 store_AB_qA_qB = Ok (elbo, sample_stochastic) s1 ∧
    AdamOptimizer_minimize 1%Z (tf_neg elbo) world0 = Done train_step w1.
Proof.
  assert (train 0 2 1%Z false false world0 store_AB_qA_qB
          = Returned trained_posterior trained_world store_vm) as Htrain
    by (vm_compute; reflexivity).
  split; [exact Htrain|].
  exact (train_returns_only_after_a_step _ _ _ _ _ _ _ _ _ _ Htrain).
Defined.

Lemma train_without_steps_witness :
  _logp 0 store_AB_qA_qB = Ok ([54%Z], mkSampleAllSources ∅) store_vm ∧
  train 0 0 1%Z false false world0 store_AB_qA_qB
    = Threw (UnboundLocalError "fd") world0 store_vm ∧
  train 0 5 0%Z true false world0 store_AB_qA_qB
    = Threw (UnboundLocalError "fd") world0 store_vm.
Proof.
  assert (_logp 0 store_AB_qA_qB = Ok ([54%Z], mkSampleAllSources ∅) store_vm)
    as Hlogp by (vm_compute; reflexivity).
  split; [exact Hlogp|]. split.
  - apply (@train_without_steps toy_backend toy_collaborators toy_runtime
             0 0 1%Z false false world0 store_AB_qA_qB
             _ _ store_vm world0 world0 world0 world0 0 7 Hlogp).
    + left. exists 1. split; [vm_compute; reflexivity|lia].
    + reflexivity.
    + reflexivity.
    + reflexivity.
    + reflexivity.
  - apply (@train_without_steps toy_backend toy_collaborators toy_runtime
             0 5 0%Z true false world0 store_AB_qA_qB
             _ _ store_vm world0 world0 world0 world0 0 7 Hlogp).
    + right. exists world0. split; [vm_compute; reflexivity|reflexivity].
    + reflexivity.
    + exists 2. reflexivity.
    + reflexivity.
    + reflexivity.
Defined.

End MoreChecks.
